(** * Shed Skin runtime library: sequence container, byte strings, CSV codec

    A shallow embedding of [shedskin/lib/builtin/list.hpp], of the [bytes]
    methods and of the CSV codec declared in [shedskin/lib/csv.hpp], with the
    properties the specification states about them and further properties of
    the same code.

    Conventions of the embedding.
    - [__ss_int] values are integers ([Z]); C++ [/] and [%] on them are
      [Z.quot] and [Z.rem]. The width of [__ss_int] is a parameter, and the
      index of a stride loop wraps around at it, as the build's [-fwrapv]
      has it; an [int] has 32 bits. Lengths of buffers are not bounded.
    - A [__GC_VECTOR(T)] is a [list T]; an access outside the buffer, an
      iterator range that is not one, or a size that is negative before its
      conversion to [size_t], leaves the defined behaviour of the C++ program
      and is reported as [Undefined], never given a value.
    - A method that mutates [this] is a state transformer on the fields of
      [this]; a [const]-like method is a function of them.
    - Loops over a stride carry a fuel argument; running out of fuel is the
      separate outcome [Diverge], and the theorems show it is never reached. *)

From Stdlib Require Import ZArith Lia String Ascii DecimalString HexadecimalString.
From Stdlib Require Import Permutation.
From stdpp Require Import base option list sorting strings gmap.

Open Scope Z_scope.

(* ================================================================= *)
(** * Part I: the embedding                                           *)
(* ================================================================= *)

(** ** Exceptions and outcomes *)

Inductive exception : Type :=
  | ValueError (msg : string)
  | IndexError (msg : string)
  | Error (msg : string).

Inductive outcome (A : Type) : Type :=
  | Return (a : A)
  | Throw (e : exception)
  | Undefined
  | Diverge.

Arguments Return {A} a.
Arguments Throw {A} e.
Arguments Undefined {A}.
Arguments Diverge {A}.

Definition obind {A B : Type} (o : outcome A) (k : A → outcome B) : outcome B :=
  match o with
  | Return a => k a
  | Throw e => Throw e
  | Undefined => Undefined
  | Diverge => Diverge
  end.

(** A method body: reads and updates the receiver's fields [S], and ends in an
    outcome. The state that comes with [Throw] is the receiver as the
    exception leaves it. *)
Definition M (S A : Type) : Type := S → outcome A * S.

Definition ret {S A : Type} (a : A) : M S A := λ st, (Return a, st).
Definition lift {S A : Type} (o : outcome A) : M S A := λ st, (o, st).
Definition throw {S A : Type} (e : exception) : M S A := lift (Throw e).
Definition get {S : Type} : M S S := λ st, (Return st, st).
Definition put {S : Type} (st : S) : M S unit := λ _, (Return tt, st).
Definition bind {S A B : Type} (m : M S A) (k : A → M S B) : M S B :=
  λ st, match m st with
        | (Return a, st') => k a st'
        | (Throw e, st') => (Throw e, st')
        | (Undefined, st') => (Undefined, st')
        | (Diverge, st') => (Diverge, st')
        end.

Declare Scope method_scope.
Delimit Scope method_scope with method.
Notation "x <- m ;; k" := (bind m (λ x, k))
  (at level 100, m at next level, right associativity) : method_scope.
Notation "m ;;; k" := (bind m (λ _, k))
  (at level 100, right associativity) : method_scope.

Declare Scope outcome_scope.
Delimit Scope outcome_scope with outcome.
Notation "x <~ o ;; k" := (obind o (λ x, k))
  (at level 100, o at next level, right associativity) : outcome_scope.

(** Modelled from the spec: [__str] is defined outside the visible sources.
    Section 7: a message "naming both the expected and actual slice sizes";
    the size is rendered in decimal. *)
Definition __str (n : Z) : string :=
  DecimalString.NilZero.string_of_int (Z.to_int n).

(** Modelled from the spec: [__abs] is defined outside the visible sources.
    Section 4.1 counts "the number of positions touched by the stride walk"
    from the distance between the endpoints and the size of the step: the
    absolute value. *)
Definition __abs (a : Z) : Z := if a <? 0 then - a else a.

(** ** Machine integers *)

(** Two's-complement wrap-around to [bits] bits. *)
Definition wrap (bits z : Z) : Z :=
  (z + 2 ^ (bits - 1)) `mod` 2 ^ bits - 2 ^ (bits - 1).

(** [int]: 32 bits on the platforms the build files target. *)
Definition int_bits : Z := 32.
Definition int_max : Z := 2 ^ (int_bits - 1) - 1.

(** The conversion of an integer value to [int]. *)
Definition to_int (z : Z) : Z := wrap int_bits z.

(** [__ss_int]: the typedef is outside the visible sources, so its width is
    a parameter; it is [int] or a wider type. *)
Class ss_int : Type := mk_ss_int {
  ss_bits : Z;
  ss_bits_int : int_bits ≤ ss_bits;
}.

Definition ss_max `{ss_int} : Z := 2 ^ (ss_bits - 1) - 1.
Definition ss_min `{ss_int} : Z := - 2 ^ (ss_bits - 1).

(** [j += s] on an [__ss_int] index. The build files compile with
    [-fwrapv]: a sum that leaves the range of the type wraps around. The
    sum of two values of the type can only leave the range on the side the
    step points to. *)
Definition ss_add `{ss_int} (j s : Z) : Z :=
  if (0 <? s) && (ss_max <? j + s) || (s <? 0) && (j + s <? ss_min)
  then wrap ss_bits (j + s)
  else j + s.

(** [__ss_int] as [int], the narrowest choice. *)
#[global] Instance ss_int_32 : ss_int :=
  {| ss_bits := 32; ss_bits_int := Z.le_refl int_bits |}.

(** The lengths and steps for which the size check of an extended slice
    assignment computes in [int] without loss, and for which the index of
    a stride walk over a buffer of that length does not wrap. *)
Definition stride_fits `{ss_int} (len s : Z) : Prop :=
  len ≤ int_max ∧ - int_max ≤ s ≤ int_max ∧ len + s ≤ ss_max.

(** The loop [for (j = l; cont j; j += s) body], with [st] the variables the
    body updates. *)
Fixpoint for_stride {S : Type} (fuel : nat) (cont : Z → bool)
    (body : Z → S → outcome S) (j s : Z) (st : S) {struct fuel} : outcome S :=
  if cont j then
    match fuel with
    | O => Diverge
    | Datatypes.S fuel' =>
        obind (body j st) (for_stride fuel' cont body (j + s) s)
    end
  else Return st.

(** The same loop with an [__ss_int] index: [j += s] wraps. *)
Fixpoint for_stride_ss `{ss_int} {S : Type} (fuel : nat) (cont : Z → bool)
    (body : Z → S → outcome S) (j s : Z) (st : S) {struct fuel} : outcome S :=
  if cont j then
    match fuel with
    | O => Diverge
    | Datatypes.S fuel' =>
        obind (body j st) (for_stride_ss fuel' cont body (ss_add j s) s)
    end
  else Return st.

(** The values [j] takes in a loop whose index does not wrap, in order: the
    positions the stride walk covers. *)
Fixpoint walk (fuel : nat) (cont : Z → bool) (j s : Z) {struct fuel} : list Z :=
  match fuel with
  | O => []
  | Datatypes.S fuel' => if cont j then j :: walk fuel' cont (j + s) s else []
  end.

(** The positions an upward ([0 < s], while [j < u]) or downward (while
    [j > u]) walk from [l] covers. *)
Definition stride_positions (l u s : Z) : list Z :=
  if 0 <? s then walk (Z.to_nat (u - l)) (λ j, j <? u) l s
  else walk (Z.to_nat (l - u)) (λ j, u <? j) l s.

(** Running a loop body over a list of positions. *)
Fixpoint run_over {S : Type} (body : Z → S → outcome S) (ps : list Z) (st : S)
    : outcome S :=
  match ps with
  | [] => Return st
  | p :: ps' => obind (body p st) (run_over body ps')
  end.

(** ** list<T> (shedskin/lib/builtin/list.hpp) *)

Module PyList.

(** Modelled from the spec: [__wrap] is defined outside the visible sources.
    Section 4.1: "[i] may be negative; normalized as [i' = i + length] if
    [i < 0]. Fails with an IndexError-class condition if [i'] is still outside
    [[0, length)]". The specification fixes the class of the condition only;
    the message is a placeholder. *)
Definition __wrap (len i : Z) : outcome Z :=
  let i' := if i <? 0 then i + len else i in
  if (i' <? 0) || (len <=? i')
  then Throw (IndexError "index out of range")
  else Return i'.

(** Standard slice normalisation of one endpoint: negative endpoints are
    offset by the length, then clamped into [[0, len]] for a positive step
    and into [[-1, len - 1]] for a negative one. *)
Definition clamp_endpoint (e s len : Z) : Z :=
  let e' := if e <? 0 then e + len else e in
  if 0 <? s
  then (if e' <? 0 then 0 else if len <? e' then len else e')
  else (if e' <? 0 then -1 else if len <=? e' then len - 1 else e').

(** Modelled from the spec: [slicenr] is defined outside the visible sources.
    Section 4.1: "a zero step is an error. Indices are first
    clamped/normalized using the standard slice-normalization rule: negative
    endpoints are offset by length, then clamped into [[0, length]] for
    positive step ([[-1, length-1]] conceptually for negative step)".
    The mask [x] says which of start (bit 0), stop (bit 1) and step (bit 2)
    the caller gave, as the comment at its use in [__setslice__] and the call
    [slicenr(7, ...)] of [index] have it; an endpoint that was not given takes
    the end of the container the walk starts from or runs to, a step that was
    not given is 1. *)
Definition slicenr (x l u s len : Z) : outcome (Z * Z * Z) :=
  if Z.testbit x 2 && (s =? 0)
  then Throw (ValueError "slice step cannot be zero")
  else
    let s := if Z.testbit x 2 then s else 1 in
    let l := if Z.testbit x 0 then clamp_endpoint l s len
             else if 0 <? s then 0 else len - 1 in
    let u := if Z.testbit x 1 then clamp_endpoint u s len
             else if 0 <? s then len else -1 in
    Return (l, u, s).

(** The argument of a method that takes a [list<T> *]: the receiver itself,
    or a distinct list object. *)
Inductive operand (T : Type) : Type :=
  | Self
  | Other (la : list T).
Arguments Self {T}.
Arguments Other {T} la.

(** A [pyobj *] as [__eq__] sees it through [dynamic_cast<list<T> *>]. *)
Inductive pyobj (T : Type) : Type :=
  | ListObj (units : list T)
  | NotAList.
Arguments ListObj {T} units.
Arguments NotAList {T}.

Section ListMethods.
Context `{ss_int}.
Context {T : Type}.
(** [__eq] on elements: value equality of the element type. *)
Context (__eq : T → T → bool).

Definition __len__ (units : list T) : Z := Z.of_nat (length units).

(** [units[(size_t)i]] as an rvalue. *)
Definition vec_read (units : list T) (i : Z) : outcome T :=
  if i <? 0 then Undefined
  else match units !! Z.to_nat i with
       | Some e => Return e
       | None => Undefined
       end.

(** [units[(size_t)i] = e]. *)
Definition vec_write (units : list T) (i : Z) (e : T) : outcome (list T) :=
  if (0 <=? i) && (i <? __len__ units)
  then Return (<[Z.to_nat i := e]> units)
  else Undefined.

(** [units.erase(units.begin()+a, units.begin()+b)]. *)
Definition vec_erase (units : list T) (a b : Z) : outcome (list T) :=
  if (0 <=? a) && (a <=? b) && (b <=? __len__ units)
  then Return (take (Z.to_nat a) units ++ drop (Z.to_nat b) units)
  else Undefined.

(** [units.insert(units.begin()+a, first, last)] with the range a list. *)
Definition vec_insert (units : list T) (a : Z) (la : list T) : outcome (list T) :=
  if (0 <=? a) && (a <=? __len__ units)
  then Return (take (Z.to_nat a) units ++ la ++ drop (Z.to_nat a) units)
  else Undefined.

Definition __getitem__ (units : list T) (i : Z) : outcome T :=
  (i <~ __wrap (__len__ units) i ;;
   vec_read units i)%outcome.

Definition __setitem__ (i : Z) (e : T) : M (list T) unit :=
  (units <- get ;;
   i <- lift (__wrap (__len__ units) i) ;;
   units' <- lift (vec_write units i e) ;;
   put units')%method.

(** The comparison loop of [__eq__], over two buffers of one length. *)
Fixpoint eq_units (a b : list T) : bool :=
  match a, b with
  | [], [] => true
  | x :: a', y :: b' => if __eq x y then eq_units a' b' else false
  | _, _ => false
  end.

Definition __eq__ (units : list T) (p : pyobj T) : bool :=
  match p with
  | NotAList => false
  | ListObj b =>
      if negb (length b =? length units)%nat then false
      else eq_units units b
  end.

Definition append (a : T) : M (list T) unit :=
  (units <- get ;; put (units ++ [a]))%method.

(** [__slice__]: the result is the fresh list [c]; the receiver is only
    read. With [s == 1] the [resize] takes [(size_t)(u-l)] and [memcpy]
    reads [u-l] elements from [units[l]] on. The stride loops step an
    [__ss_int]; a walk that does not wrap takes at most [u - l] steps, and
    the fuel covers one more, which an index that wrapped would take. *)
Definition __slice__ (units : list T) (x l u s : Z) : outcome (list T) :=
  (lus <~ slicenr x l u s (__len__ units) ;;
   let '(l, u, s) := lus in
   if s =? 1 then
     if (0 <=? l) && (l <=? u) && (u <=? __len__ units)
     then Return (take (Z.to_nat (u - l)) (drop (Z.to_nat l) units))
     else Undefined
   else if 0 <? s then
     for_stride_ss (Datatypes.S (Z.to_nat (u - l))) (λ i, i <? u)
       (λ i c, e <~ vec_read units i ;; Return (c ++ [e])) l s []
   else
     for_stride_ss (Datatypes.S (Z.to_nat (l - u))) (λ i, u <? i)
       (λ i c, e <~ vec_read units i ;; Return (c ++ [e])) l s [])%outcome.

Definition operand_units (la : operand T) (units : list T) : list T :=
  match la with
  | Self => units
  | Other b => b
  end.

(** The size an extended slice addresses, as [__setslice__] computes it:
    [slicelen], [absstep] and [slicesize] are [int] variables, so the
    distance and the step are converted to [int]; a division by zero, or of
    the least [int] by -1, has no result. *)
Definition slicesize (l u s : Z) : outcome Z :=
  if l =? u then Return 0
  else if (0 <? s) && (u <? l) then Return 0
  else if (s <? 0) && (l <? u) then Return 0
  else
    let slicelen := to_int (__abs (u - l)) in
    let absstep := to_int (__abs s) in
    if (absstep =? 0) || (slicelen =? - int_max - 1) && (absstep =? -1)
    then Undefined
    else
      let size := slicelen `quot` absstep in
      Return (if negb (slicelen `rem` absstep =? 0) then size + 1 else size).

(** Body of both stride loops of [__setslice__]; the loop variables are
    [i] and the receiver's buffer. *)
Definition setslice_body (la : operand T) (j : Z) (st : Z * list T)
    : outcome (Z * list T) :=
  let '(i, units) := st in
  (e <~ vec_read (operand_units la units) i ;;
   units' <~ vec_write units j e ;;
   Return (i + 1, units'))%outcome.

(** [__setslice__(x, l, u, s, list<T> *la)]. With [s == 1] the elements are
    inserted through iterators into [la->units]; when [la] is the receiver
    these are iterators into the vector being changed, which [insert] does not
    allow. The stride loops step the [__ss_int] [j] as those of
    [__slice__] do. *)
Definition __setslice__ (x l u s : Z) (la : operand T) : M (list T) unit :=
  (units <- get ;;
   lus <- lift (slicenr x l u s (__len__ units)) ;;
   let '(l, u, s) := lus in
   let n := __len__ (operand_units la units) in
   (if Z.testbit x 2 && negb (s =? 1) then
      size <- lift (slicesize l u s) ;;
      if negb (size =? n)
      then throw (ValueError
             ("attempt to assign sequence of size " +:+ __str n +:+
              " to extended slice of size " +:+ __str size))
      else ret tt
    else ret tt) ;;;
   if s =? 1 then
     if l <=? u then
       erased <- lift (vec_erase units l u) ;;
       match la with
       | Self => lift Undefined
       | Other b => units' <- lift (vec_insert erased l b) ;; put units'
       end
     else
       match la with
       | Self => lift Undefined
       | Other b => units' <- lift (vec_insert units l b) ;; put units'
       end
   else if 0 <? s then
     st <- lift (for_stride_ss (Datatypes.S (Z.to_nat (u - l))) (λ j, j <? u)
                   (setslice_body la) l s (0, units)) ;;
     put st.2
   else
     st <- lift (for_stride_ss (Datatypes.S (Z.to_nat (l - u))) (λ j, u <? j)
                   (setslice_body la) l s (0, units)) ;;
     put st.2)%method.

Definition __delslice__ (a b : Z) : M (list T) unit :=
  (units <- get ;;
   if __len__ units <? a then ret tt
   else
     let b := if __len__ units <? b then __len__ units else b in
     units' <- lift (vec_erase units a b) ;;
     put units')%method.

(** The loop of [__delete__] for [s != 1]: [i] runs over the indices of
    [units] from [i] on, [v] collects what is kept. *)
Fixpoint delete_keep (rest : list T) (i l u s : Z) (v : list T) : list T :=
  match rest with
  | [] => v
  | e :: rest' =>
      let v' := if (i <? l) || (u <=? i) || negb ((i - l) `rem` s =? 0)
                then v ++ [e] else v in
      delete_keep rest' (i + 1) l u s v'
  end.

Definition __delete__ (x l u s : Z) : M (list T) unit :=
  (units <- get ;;
   lus <- lift (slicenr x l u s (__len__ units)) ;;
   let '(l, u, s) := lus in
   if s =? 1 then __delslice__ l u
   else put (delete_keep units 0 l u s []))%method.

(** The elements of [rest], whose indices start at [i], at the indices
    that satisfy [keep], in their order. *)
Fixpoint keep_from (keep : Z → bool) (i : Z) (rest : list T) : list T :=
  match rest with
  | [] => []
  | e :: rest' =>
      if keep i then e :: keep_from keep (i + 1) rest'
      else keep_from keep (i + 1) rest'
  end.

End ListMethods.

(** *** sort *)

Section Sort.
Context {T U : Type}.
(** The natural orderings of the element type and of the key type, as
    strict "less than" tests. *)
Context (lt : T → T → bool) (lt_key : U → U → bool).

(** Modelled from the spec: the comparator objects [cpp_cmp],
    [cpp_cmp_rev], [cpp_cmp_custom], [cpp_cmp_custom_rev], [cpp_cmp_key]
    and [cpp_cmp_key_rev] are defined outside the visible sources.
    Section 4.1: "[key], when given, is applied once per element to produce
    a derived sort key; comparisons then use that key's natural ordering
    (or [comparator] applied to raw elements if [key] is absent and
    [comparator] given). [reverse] flips the final ordering". A custom
    comparator is a three-way comparison, negative for "before". *)
Definition cpp_cmp (a b : T) : bool := lt a b.
Definition cpp_cmp_rev (a b : T) : bool := lt b a.
Definition cpp_cmp_custom (cmp : T → T → Z) (a b : T) : bool := cmp a b <? 0.
Definition cpp_cmp_custom_rev (cmp : T → T → Z) (a b : T) : bool := 0 <? cmp a b.
Definition cpp_cmp_key (key : T → U) (a b : T) : bool := lt_key (key a) (key b).
Definition cpp_cmp_key_rev (key : T → U) (a b : T) : bool := lt_key (key b) (key a).

(** [std::sort(first, last, comp)] of the C++ standard library, by its
    contract: the range is rearranged so that no element is before ([comp])
    an earlier one. The contract does not order equivalent elements, and
    the library's introsort does move them. *)
Definition std_sort (comp : T → T → bool) (units units' : list T) : Prop :=
  units' ≡ₚ units
  ∧ ∀ (i j : nat) a b,
      (i < j)%nat → units' !! i = Some a → units' !! j = Some b →
      comp b a = false.

(** The comparator [sort] hands to [std::sort]: a null function pointer is
    [None], and [key] is looked at before [cmp]. *)
Definition sort_comparator (cmp : option (T → T → Z)) (key : option (T → U))
    (reverse : Z) : T → T → bool :=
  match key with
  | Some key =>
      if negb (reverse =? 0) then cpp_cmp_key_rev key else cpp_cmp_key key
  | None =>
      match cmp with
      | Some cmp =>
          if negb (reverse =? 0) then cpp_cmp_custom_rev cmp
          else cpp_cmp_custom cmp
      | None => if negb (reverse =? 0) then cpp_cmp_rev else cpp_cmp
      end
  end.

(** [sort(cmp, key, reverse)]: [units'] is a buffer the call may leave for
    [units]. *)
Definition sort (cmp : option (T → T → Z)) (key : option (T → U))
    (reverse : Z) (units units' : list T) : Prop :=
  std_sort (sort_comparator cmp key reverse) units units'.

(** Two elements compare equal under [comp] when neither is before the
    other. *)
Definition equivalent (comp : T → T → bool) (a b : T) : bool :=
  negb (comp a b) && negb (comp b a).

(** Stability: the elements equivalent to any given one come in the same
    order before and after. *)
Definition stable (comp : T → T → bool) (units units' : list T) : Prop :=
  ∀ a, filter (λ b, equivalent comp a b = true) units'
       = filter (λ b, equivalent comp a b = true) units.

End Sort.

(** Seventeen elements (key, tag) with one key, in the order of their tags,
    and the order in which the [std::sort] of GNU libstdc++ leaves such a
    range; the natural ordering of the pairs is the lexicographic one. *)
Definition same_key_units : list (Z * Z) :=
  [(0, 0); (0, 1); (0, 2); (0, 3); (0, 4); (0, 5); (0, 6); (0, 7); (0, 8);
   (0, 9); (0, 10); (0, 11); (0, 12); (0, 13); (0, 14); (0, 15); (0, 16)].

Definition same_key_sorted : list (Z * Z) :=
  [(0, 8); (0, 16); (0, 15); (0, 14); (0, 13); (0, 12); (0, 11); (0, 10);
   (0, 9); (0, 0); (0, 7); (0, 6); (0, 5); (0, 4); (0, 3); (0, 2); (0, 1)].

Definition lexicographic (a b : Z * Z) : bool :=
  (a.1 <? b.1) || ((a.1 =? b.1) && (a.2 <? b.2)).

End PyList.

(** ** list<T>: the remaining methods of list.hpp *)

Module PyListOps.
Import PyList.

Section ListOps.
Context {T : Type}.
(** [__eq] on elements, and [T()], the value [resize] fills new slots with. *)
Context (__eq : T → T → bool).
Context (T0 : T).

(** [units.resize((size_t)n)] *)
Definition vec_resize (units : list T) (n : Z) : outcome (list T) :=
  if n <? 0 then Undefined
  else Return (take (Z.to_nat n) units
               ++ replicate (Z.to_nat n - length units) T0).

(** [memcpy(&dst[d], &src[s], sizeof(T)*n)]; [src] is the source buffer as it
    is when the call is made. *)
Definition vec_memcpy (dst : list T) (d : Z) (src : list T) (s n : Z)
    : outcome (list T) :=
  if (0 <=? d) && (0 <=? s) && (0 <=? n)
     && (d + n <=? __len__ dst) && (s + n <=? __len__ src)
  then Return (take (Z.to_nat d) dst
               ++ take (Z.to_nat n) (drop (Z.to_nat s) src)
               ++ drop (Z.to_nat (d + n)) dst)
  else Undefined.

Definition clear : M (list T) () :=
  (units <- get ;;
   units' <- lift (vec_resize units 0) ;;
   put units')%method.

Definition __delitem__ (i : Z) : M (list T) () :=
  (units <- get ;;
   i <- lift (__wrap (__len__ units) i) ;;
   units' <- lift (vec_erase units i (i + 1)) ;;
   put units')%method.

(** The loop of [__contains__]. *)
Fixpoint contains_from (rest : list T) (a : T) : bool :=
  match rest with
  | [] => false
  | x :: rest' => if __eq x a then true else contains_from rest' a
  end.

Definition __contains__ (units : list T) (a : T) : bool :=
  contains_from units a.

Definition __add__ (units b : list T) : outcome (list T) :=
  let l1 := __len__ units in
  let l2 := __len__ b in
  (c <~ vec_resize [] (l1 + l2) ;;
   c <~ (if l1 =? 1 then e <~ vec_read units 0 ;; vec_write c 0 e
         else vec_memcpy c 0 units 0 l1) ;;
   c <~ (if l2 =? 1 then e <~ vec_read b 0 ;; vec_write c l1 e
         else vec_memcpy c l1 b 0 l2) ;;
   Return c)%outcome.

Definition __mul__ (units : list T) (b : Z) : outcome (list T) :=
  if b <=? 0 then Return []
  else
    let len := __len__ units in
    if len =? 1 then
      (e <~ vec_read units 0 ;; Return (replicate (Z.to_nat b) e))%outcome
    else
      (c <~ vec_resize [] (b * len) ;;
       for_stride (Z.to_nat b) (λ i, i <? b)
         (λ i c, vec_memcpy c (i * len) units 0 len) 0 1 c)%outcome.

(** [extend(list<T> *p)]; when [p] is the receiver the source of the copy is
    the buffer after the [resize]. *)
Definition extend (p : operand T) : M (list T) () :=
  (units <- get ;;
   let l1 := __len__ units in
   let l2 := __len__ (operand_units p units) in
   resized <- lift (vec_resize units (l1 + l2)) ;;
   units' <- lift (vec_memcpy resized l1 (operand_units p resized) 0 l2) ;;
   put units')%method.

(** [__iadd__] with a list argument: [extend], and the receiver is the
    result. *)
Definition __iadd__ (p : operand T) : M (list T) () := extend p.


(** The loop of [index]. *)
Fixpoint index_loop (fuel : nat) (units : list T) (a : T) (i e : Z)
    {struct fuel} : outcome Z :=
  if i <? e then
    match fuel with
    | O => Diverge
    | Datatypes.S fuel' =>
        (x <~ vec_read units i ;;
         if __eq a x then Return i
         else index_loop fuel' units a (i + 1) e)%outcome
    end
  else Throw (ValueError "list.index(x): x not in list").

(** [index(a, s, e)] *)
Definition index (units : list T) (a : T) (s e : Z) : outcome Z :=
  (lus <~ slicenr 7 s e 1 (__len__ units) ;;
   let '(s, e, _) := lus in
   index_loop (Z.to_nat (e - s)) units a s e)%outcome.

(** [index(a)] and [index(a, s)] *)
Definition index_1 (units : list T) (a : T) : outcome Z :=
  index units a 0 (__len__ units).

Definition index_2 (units : list T) (a : T) (s : Z) : outcome Z :=
  index units a s (__len__ units).

(** The loop of [count]. *)
Fixpoint count_from (rest : list T) (a : T) (c : Z) : Z :=
  match rest with
  | [] => c
  | x :: rest' => count_from rest' a (if __eq a x then c + 1 else c)
  end.

Definition count (units : list T) (a : T) : Z := count_from units a 0.

(** [pop(i)] *)
Definition pop_at (i : Z) : M (list T) T :=
  (units <- get ;;
   let len := __len__ units in
   if len =? 0 then throw (IndexError "pop from empty list")
   else
     let i := if i <? 0 then len + i else i in
     if (i <? 0) || (len <=? i)
     then throw (IndexError "pop index out of range")
     else
       e <- lift (vec_read units i) ;;
       units' <- lift (vec_erase units i (i + 1)) ;;
       put units' ;;;
       ret e)%method.

(** [pop()]: [back()] and [pop_back()]. *)
Definition pop : M (list T) T :=
  (units <- get ;;
   if __len__ units =? 0 then throw (IndexError "pop from empty list")
   else
     e <- lift (vec_read units (__len__ units - 1)) ;;
     put (take (length units - 1) units) ;;;
     ret e)%method.

(** [reverse()]: [std::reverse] over the whole buffer. *)
Definition reverse : M (list T) () :=
  (units <- get ;; put (rev units))%method.

Definition insert (m : Z) (e : T) : M (list T) () :=
  (units <- get ;;
   let len := __len__ units in
   let m := if m <? 0 then len + m else m in
   let m := if m <? 0 then 0 else m in
   let m := if len <=? m then len else m in
   units' <- lift (vec_insert units m [e]) ;;
   put units')%method.

(** The position [insert(m, e)] puts [e] at: [m], offset by the length when
    negative, brought into [0..len]. *)
Definition insert_position (len m : Z) : Z :=
  if m <? 0 then Z.max 0 (len + m) else Z.min m len.

(** The loop of [remove]: the index of the first element equal to [e]. *)
Fixpoint remove_find (rest : list T) (e : T) (i : Z) : option Z :=
  match rest with
  | [] => None
  | x :: rest' => if __eq x e then Some i else remove_find rest' e (i + 1)
  end.

Definition remove (e : T) : M (list T) () :=
  (units <- get ;;
   match remove_find units e 0 with
   | Some i =>
       units' <- lift (vec_erase units i (i + 1)) ;;
       put units'
   | None => throw (ValueError "list.remove(x): x not in list")
   end)%method.

(** [__add_list_elt(l, u)] *)
Definition __add_list_elt (l : list T) (u : T) : outcome (list T) :=
  let ll := __len__ l in
  (c <~ vec_resize [] (ll + 1) ;;
   c <~ vec_memcpy c 0 l 0 ll ;;
   vec_write c ll u)%outcome.

End ListOps.

End PyListOps.

(** ** bytes *)

Module PyBytes.

Import Byte.

#[global] Instance byte_eq_decision : EqDecision byte := Byte.byte_eq_dec.

Record bytes : Type := mk_bytes {
  unit : list byte;
  hash : Z;
  frozen : Z;
}.

(** [const char *] view of a buffer: the bytes before the first NUL. *)
Fixpoint c_str (s : list byte) : list byte :=
  match s with
  | [] => []
  | c :: s' => if Byte.eqb c x00 then [] else c :: c_str s'
  end.

(** Position of the first [c] in [s], counted from [i]; [-1] for [npos]. *)
Fixpoint find_from (s : list byte) (c : byte) (i : Z) : Z :=
  match s with
  | [] => -1
  | c' :: s' => if Byte.eqb c' c then i else find_from s' c (i + 1)
  end.

(** [ss << std::hex << j] for a non-negative [int]: lower-case hexadecimal
    digits, no padding. *)
Definition hex_of_int (j : Z) : list byte :=
  list_byte_of_string
    (HexadecimalString.NilZero.string_of_uint (N.to_hex_uint (Z.to_N j))).

(** The objects [bytes *] point to. *)
Abbreviation heap := (gmap positive bytes).

Section BytesMethods.
(** [std::hash<std::string>] followed by the conversion to [long]. *)
Context (std_hash : list byte → Z).
(** The default argument of [bytes(int frozen)] in the class declaration,
    which is outside the visible sources. *)
Context (default_frozen : Z).

(** [bytes::bytes(int frozen)] *)
Definition bytes_new (frozen : Z) : bytes :=
  {| unit := []; hash := -1; frozen := frozen |}.

(** [bytes::bytes(bytes *b, int frozen)] *)
Definition bytes_copy (b : bytes) (frozen : Z) : bytes :=
  {| unit := unit b; hash := -1; frozen := frozen |}.

Definition size (this : bytes) : Z := Z.of_nat (length (unit this)).

(** [bytes::find(const char c, int a)]: [std::string::find] takes the start
    as a [size_t], so a negative [a] is a start beyond every buffer, and
    the result is [npos], -1 as an [int]. *)
Definition find (this : bytes) (c : byte) (a : Z) : Z :=
  if (a <? 0) || (Z.of_nat (length (unit this)) <? a) then -1
  else find_from (drop (Z.to_nat a) (unit this)) c a.

(** One iteration of the loop of [__repr__]: what byte [c] adds to the
    stream. *)
Definition repr_byte (sep let_ : list byte) (c : byte) : list byte :=
  let k := find_from sep c 0 in
  if negb (k =? -1) then
    x5c :: match let_ !! Z.to_nat k with Some e => [e] | None => [] end
  else
    let j := Z.of_N (Byte.to_N c) in
    if j <? 16 then [x5c; x78; x30] ++ hex_of_int j
    else if (32 <=? j) && (j <=? 126) then [c]
    else [x5c; x78] ++ hex_of_int j.

Definition __repr__ (this : bytes) : string :=
  let sep := [x5c; x0a; x0d; x09] in
  let let_ := [x5c; x6e; x72; x74] in
  let quote := x27 in
  let hasq := find this x27 0 in
  let hasd := find this x22 0 in
  let '(sep, let_) :=
    if negb (hasq =? -1) && negb (hasd =? -1)
    then (sep ++ [x27], let_ ++ [x27]) else (sep, let_) in
  let quote := if negb (hasq =? -1) && (hasd =? -1) then x22 else quote in
  let ss := [x62; quote] ++ flat_map (repr_byte sep let_) (unit this) ++ [quote] in
  string_of_list_byte (c_str ss).

Definition __hash__ : M bytes Z :=
  (this <- get ;;
   if negb (hash this =? -1) then ret (hash this)
   else
     let h := std_hash (c_str (unit this)) in
     put {| unit := unit this; hash := h; frozen := frozen this |} ;;;
     ret h)%method.

(** [memcmp(a, b, len) == 0] on two buffers that hold [len] bytes. *)
Definition memcmp_eq (a b : list byte) (len : nat) : bool :=
  bool_decide (take len a = take len b).

Definition __eq__ (this q : bytes) : bool :=
  let len := size this in
  if negb (len =? size q)
     || (negb (hash this =? -1) && negb (hash q =? -1)
         && negb (hash this =? hash q))
  then false
  else memcmp_eq (unit this) (unit q) (Z.to_nat len).

(** Allocation and access through pointers. *)
Definition alloc (b : bytes) : M heap positive :=
  λ h, let p := fresh (dom h) in (Return p, <[p := b]> h).

Definition load (p : positive) : M heap bytes :=
  λ h, match h !! p with
       | Some b => (Return b, h)
       | None => (Undefined, h)
       end.

(** [s->unit.append(src)] *)
Definition unit_append (s : positive) (src : list byte) : M heap () :=
  (b <- load s ;;
   h <- get ;;
   put (<[s := {| unit := unit b ++ src; hash := hash b; frozen := frozen b |}]> h)
  )%method.

Definition __add__ (this b : positive) : M heap positive :=
  (s <- alloc (bytes_new default_frozen) ;;
   me <- load this ;;
   unit_append s (unit me) ;;;
   other <- load b ;;
   unit_append s (unit other) ;;;
   ret s)%method.

Definition __iadd__ (this b : positive) : M heap positive := __add__ this b.

(** The memoized hash is the sentinel or the hash of the contents. *)
Definition hash_valid (b : bytes) : Prop :=
  hash b = -1 ∨ hash b = std_hash (c_str (unit b)).

End BytesMethods.

(** *** The literal form as the specification words it *)

Definition spec_quote (content : list byte) : byte :=
  if bool_decide (x27 ∈ content) && negb (bool_decide (x22 ∈ content))
  then x22 else x27.

Definition hex_digit (d : Z) : byte :=
  default x30 ([x30; x31; x32; x33; x34; x35; x36; x37; x38; x39;
                x61; x62; x63; x64; x65; x66] !! Z.to_nat d).

Definition spec_escape (quote c : byte) : list byte :=
  let j := Z.of_N (Byte.to_N c) in
  if Byte.eqb c x5c then [x5c; x5c]
  else if Byte.eqb c x0a then [x5c; x6e]
  else if Byte.eqb c x0d then [x5c; x72]
  else if Byte.eqb c x09 then [x5c; x74]
  else if Byte.eqb c quote then [x5c; quote]
  else if (j <? 32) || (126 <? j)
       then [x5c; x78; hex_digit (j `div` 16); hex_digit (j `mod` 16)]
  else [c].

Definition spec_repr (content : list byte) : string :=
  let quote := spec_quote content in
  string_of_list_byte
    ([x62; quote] ++ flat_map (spec_escape quote) content ++ [quote]).

End PyBytes.

(** ** bytes: the remaining methods *)

Module PyBytesOps.
Import Byte PyBytes.

(** [bytes::__str__]; [__add_strs] joins its string arguments, and
    [new str(this->unit)] holds the whole buffer. *)
Definition __str__ (this : bytes) : string :=
  if negb (frozen this =? 0)
  then "bytearray(b'" +:+ string_of_list_byte (unit this) +:+ "')"
  else "b'" +:+ string_of_list_byte (unit this) +:+ "'".

(** The value of a lower-case hexadecimal digit. *)
Definition hex_value (c : byte) : option Z :=
  let j := Z.of_N (Byte.to_N c) in
  if (48 <=? j) && (j <=? 57) then Some (j - 48)
  else if (97 <=? j) && (j <=? 102) then Some (j - 87)
  else None.

(** Reads back one item of the literal form: a backslash escape or a byte
    that stands for itself. *)
Definition unescape_one (s : list byte) : option (byte * list byte) :=
  match s with
  | [] => None
  | c :: s1 =>
      if Byte.eqb c x5c then
        match s1 with
        | e :: s2 =>
            if Byte.eqb e x5c then Some (x5c, s2)
            else if Byte.eqb e x6e then Some (x0a, s2)
            else if Byte.eqb e x72 then Some (x0d, s2)
            else if Byte.eqb e x74 then Some (x09, s2)
            else if Byte.eqb e x27 then Some (x27, s2)
            else if Byte.eqb e x22 then Some (x22, s2)
            else if Byte.eqb e x78 then
              match s2 with
              | h1 :: h2 :: s3 =>
                  match hex_value h1, hex_value h2 with
                  | Some v1, Some v2 =>
                      match Byte.of_N (Z.to_N (16 * v1 + v2)) with
                      | Some b => Some (b, s3)
                      | None => None
                      end
                  | _, _ => None
                  end
              | _ => None
              end
            else None
        | [] => None
        end
      else Some (c, s1)
  end.

(** Reads back a whole body of escapes; every item takes at least one byte,
    so the length of the body is fuel enough. *)
Fixpoint unescape (fuel : nat) (s : list byte) : option (list byte) :=
  match s with
  | [] => Some []
  | _ :: _ =>
      match fuel with
      | O => None
      | Datatypes.S fuel' =>
          match unescape_one s with
          | Some (c, s') =>
              match unescape fuel' s' with
              | Some cs => Some (c :: cs)
              | None => None
              end
          | None => None
          end
      end
  end.

(** A byte of printable ASCII, and one that is neither a backslash nor a
    quote as well. *)
Definition printable (c : byte) : bool :=
  (32 <=? Z.of_N (Byte.to_N c)) && (Z.of_N (Byte.to_N c) <=? 126).

Definition plain (c : byte) : bool :=
  printable c
  && negb (Byte.eqb c x5c) && negb (Byte.eqb c x27) && negb (Byte.eqb c x22).

End PyBytesOps.

(** ** The CSV codec (shedskin/lib/csv.hpp) *)

Module Csv.

Inductive quoting_mode : Type :=
  | QUOTE_MINIMAL
  | QUOTE_ALL
  | QUOTE_NONNUMERIC
  | QUOTE_NONE.

Inductive parse_state : Type :=
  | START_RECORD
  | START_FIELD
  | ESCAPED_CHAR
  | IN_FIELD
  | IN_QUOTED_FIELD
  | ESCAPE_IN_QUOTED_FIELD
  | QUOTE_IN_QUOTED_FIELD
  | EAT_CRNL.

#[global] Instance quoting_mode_eq_dec : EqDecision quoting_mode.
Proof. solve_decision. Defined.

#[global] Instance parse_state_eq_dec : EqDecision parse_state.
Proof. solve_decision. Defined.

(** [class Excel]: the dialect. *)
Record Excel : Type := mk_Excel {
  lineterminator : string;
  skipinitialspace : bool;
  quoting : quoting_mode;
  strict : bool;
  delimiter : ascii;
  escapechar : option ascii;
  quotechar : ascii;
  doublequote : bool;
}.

Definition CR : ascii := "013"%char.
Definition LF : ascii := "010"%char.

(** Modelled from the spec: [Excel::__init__] is defined in csv.cpp, outside
    the visible sources. Section 6: "A built-in default dialect (comma
    delimiter, double-quote quoting, [\r\n] terminator, minimal quoting,
    doublequote enabled)". *)
Definition excel : Excel :=
  {| lineterminator := String CR (String LF EmptyString);
     skipinitialspace := false;
     quoting := QUOTE_MINIMAL;
     strict := false;
     delimiter := ","%char;
     escapechar := None;
     quotechar := "034"%char;
     doublequote := true |}.

(** [class writer]; [output_file] is the sequence of strings written to the
    sink. *)
Record writer : Type := mk_writer {
  w_dialect : Excel;
  num_fields : Z;
  output_file : list string;
  w_rec : list string;
}.

(** [class reader]; [input_iter] is the sequence of lines still to come. *)
Record reader : Type := mk_reader {
  r_dialect : Excel;
  line_num : Z;
  fields : list string;
  field : string;
  state : parse_state;
  input_iter : list string;
}.

Definition in_string (c : ascii) (s : string) : bool :=
  existsb (Ascii.eqb c) (list_ascii_of_string s).

Definition is_escapechar (d : Excel) (c : ascii) : bool :=
  match escapechar d with
  | Some e => Ascii.eqb c e
  | None => false
  end.

Section Writer.
(** Whether a field parses as a number. *)
Context (is_number : string → bool).

(** Modelled from the spec: [writer::join_reset], in csv.cpp, outside the
    visible sources: a new record starts with nothing joined. *)
Definition join_reset : M writer () :=
  (w <- get ;;
   put {| w_dialect := w_dialect w; num_fields := num_fields w;
          output_file := output_file w; w_rec := [] |})%method.

(** Modelled from the spec: the character loop of
    [writer::join_append_data], in csv.cpp, outside the visible sources.
    Section 4.4: "quote-minimal quotes only fields containing the
    delimiter, quote character, any character of the line terminator, or
    the escape character; ... quote-none never quotes and instead escapes
    delimiter/quote/line-terminator occurrences using the escape character,
    failing if quote-none is selected with no escape character configured.
    ... Embedded quote characters are doubled when doublequote is enabled,
    otherwise escaped." The result is the text of the field and whether it
    is to be quoted. *)
Fixpoint join_chars (d : Excel) (cs : list ascii) (quoted : bool)
    : outcome (string * bool) :=
  match cs with
  | [] => Return (EmptyString, quoted)
  | c :: cs' =>
      let escaped :=
        match escapechar d with
        | Some e => Return (String e (String c EmptyString))
        | None => Throw (ValueError "need to escape, but no escapechar set")
        end in
      let here :=
        match quoting d with
        | QUOTE_NONE =>
            if Ascii.eqb c (delimiter d) || Ascii.eqb c (quotechar d)
               || in_string c (lineterminator d)
            then escaped else Return (String c EmptyString)
        | _ =>
            if Ascii.eqb c (quotechar d) then
              if doublequote d
              then Return (String c (String c EmptyString))
              else escaped
            else Return (String c EmptyString)
        end in
      let quoted' :=
        quoted
        || (bool_decide (quoting d = QUOTE_MINIMAL)
            && (Ascii.eqb c (delimiter d) || Ascii.eqb c (quotechar d)
                || in_string c (lineterminator d) || is_escapechar d c)) in
      (text <~ here ;;
       rest <~ join_chars d cs' quoted' ;;
       Return (text +:+ rest.1, rest.2))%outcome
  end.

(** Modelled from the spec: [writer::join_append_data], in csv.cpp, outside
    the visible sources. Section 4.4: "A field that is empty and the record
    has exactly one field must still be quoted under quote-minimal". *)
Definition join_append_data (field : string) (quote_empty quoted : bool)
    : M writer (string * bool) :=
  (w <- get ;;
   let d := w_dialect w in
   r <- lift (join_chars d (list_ascii_of_string field) quoted) ;;
   let quoted' :=
     r.2 || (quote_empty && bool_decide (field = EmptyString)
             && bool_decide (quoting d = QUOTE_MINIMAL)) in
   ret (r.1, quoted'))%method.

(** Modelled from the spec: [writer::join_append], in csv.cpp, outside the
    visible sources: the field, between quote characters when it is to be
    quoted, is added to the record. *)
Definition join_append (field : string) (quoted quote_empty : bool)
    : M writer Z :=
  (r <- join_append_data field quote_empty quoted ;;
   w <- get ;;
   let q := String (quotechar (w_dialect w)) EmptyString in
   let text := if r.2 then q +:+ r.1 +:+ q else r.1 in
   put {| w_dialect := w_dialect w; num_fields := num_fields w;
          output_file := output_file w; w_rec := w_rec w ++ [text] |} ;;;
   ret 1)%method.

Fixpoint join_fields (seq : list string) (quote_empty : bool) : M writer () :=
  match seq with
  | [] => ret tt
  | field :: seq' =>
      (w <- get ;;
       let quoted :=
         match quoting (w_dialect w) with
         | QUOTE_ALL => true
         | QUOTE_NONNUMERIC => negb (is_number field)
         | _ => false
         end in
       join_append field quoted quote_empty ;;;
       join_fields seq' quote_empty)%method
  end.

(** Modelled from the spec: [writer::writerow], in csv.cpp, outside the
    visible sources. Section 4.4: "for each field, decide quoting via
    dialect quoting mode: quote-all quotes every field; ...
    quote-nonnumeric quotes every field except ones that parse as a number;
    ... Fields are joined with the delimiter and the line is terminated
    with the dialect's line terminator; the writer tracks the field count
    of the first row written". *)
Definition writerow (seq : list string) : M writer () :=
  (join_reset ;;;
   join_fields seq (bool_decide (length seq = 1%nat)) ;;;
   w <- get ;;
   let d := w_dialect w in
   let line :=
     String.concat (String (delimiter d) EmptyString) (w_rec w)
     +:+ lineterminator d in
   put {| w_dialect := d;
          num_fields := if num_fields w =? 0 then Z.of_nat (length seq)
                        else num_fields w;
          output_file := output_file w ++ [line];
          w_rec := w_rec w |})%method.

End Writer.

Section Reader.
(** The process-wide field size limit. *)
Context (_field_limit : Z).

Definition is_lineterm (c : ascii) : bool := Ascii.eqb c CR || Ascii.eqb c LF.

Definition set_state (st : parse_state) : M reader () :=
  (r <- get ;;
   put {| r_dialect := r_dialect r; line_num := line_num r;
          fields := fields r; field := field r; state := st;
          input_iter := input_iter r |})%method.

(** Modelled from the spec: [reader::parse_reset], in csv.cpp, outside the
    visible sources. Section 4.3: "Initial state: START_RECORD at the
    beginning of each call". *)
Definition parse_reset : M reader () :=
  (r <- get ;;
   put {| r_dialect := r_dialect r; line_num := line_num r;
          fields := []; field := EmptyString; state := START_RECORD;
          input_iter := input_iter r |})%method.

(** Modelled from the spec: [reader::parse_save_field], in csv.cpp, outside
    the visible sources: the accumulated field joins the record. *)
Definition parse_save_field : M reader () :=
  (r <- get ;;
   put {| r_dialect := r_dialect r; line_num := line_num r;
          fields := fields r ++ [field r]; field := EmptyString;
          state := state r; input_iter := input_iter r |})%method.

(** Modelled from the spec: [reader::parse_add_char], in csv.cpp, outside
    the visible sources. Section 4.3: "Field accumulation has a
    configurable maximum length; exceeding it fails the row with a
    field-size-limit condition and does not silently truncate." *)
Definition parse_add_char (c : ascii) : M reader () :=
  (r <- get ;;
   if _field_limit <=? Z.of_nat (String.length (field r))
   then throw (Error "field larger than field limit")
   else
     put {| r_dialect := r_dialect r; line_num := line_num r;
            fields := fields r;
            field := field r +:+ String c EmptyString;
            state := state r; input_iter := input_iter r |})%method.

(** Modelled from the spec: the transitions of
    [reader::parse_process_char], in csv.cpp, outside the visible sources,
    from [START_FIELD] on, as the transition policy of section 4.3 lists
    them. *)
Definition process_in_field (c : ascii) : M reader () :=
  (r <- get ;;
   let d := r_dialect r in
   if Ascii.eqb c (delimiter d) then parse_save_field ;;; set_state START_FIELD
   else if is_lineterm c then parse_save_field ;;; set_state EAT_CRNL
   else if is_escapechar d c then set_state ESCAPED_CHAR
   else parse_add_char c ;;; set_state IN_FIELD)%method.

Definition parse_process_char (c : ascii) : M reader () :=
  (r <- get ;;
   let d := r_dialect r in
   match state r with
   | START_RECORD | START_FIELD =>
       if skipinitialspace d && Ascii.eqb c " "%char then set_state START_FIELD
       else if negb (bool_decide (quoting d = QUOTE_NONE))
               && Ascii.eqb c (quotechar d)
       then set_state IN_QUOTED_FIELD
       else process_in_field c
   | IN_FIELD => process_in_field c
   | IN_QUOTED_FIELD =>
       if Ascii.eqb c (quotechar d) then set_state QUOTE_IN_QUOTED_FIELD
       else if is_escapechar d c then set_state ESCAPE_IN_QUOTED_FIELD
       else parse_add_char c
   | QUOTE_IN_QUOTED_FIELD =>
       if doublequote d && Ascii.eqb c (quotechar d)
       then parse_add_char c ;;; set_state IN_QUOTED_FIELD
       else if Ascii.eqb c (delimiter d) || is_lineterm c
       then process_in_field c
       else if strict d
       then throw (Error "delimiter expected after the closing quote")
       else parse_add_char c ;;; set_state IN_FIELD
   | ESCAPE_IN_QUOTED_FIELD => parse_add_char c ;;; set_state IN_QUOTED_FIELD
   | ESCAPED_CHAR => parse_add_char c ;;; set_state IN_FIELD
   | EAT_CRNL =>
       if is_lineterm c then ret tt
       else throw (Error "new-line character seen in unquoted field")
   end)%method.

Fixpoint parse_line (cs : list ascii) : M reader () :=
  match cs with
  | [] => ret tt
  | c :: cs' => (parse_process_char c ;;; parse_line cs')%method
  end.

(** What is left when the input ends inside a record: a dangling escape
    fails in strict mode and is kept as it is otherwise; the record holds
    what was accumulated. *)
Definition end_of_input : M reader (option (list string)) :=
  (r <- get ;;
   match state r with
   | START_RECORD => ret None
   | EAT_CRNL => ret (Some (fields r))
   | ESCAPED_CHAR | ESCAPE_IN_QUOTED_FIELD =>
       if strict (r_dialect r) then throw (Error "unexpected end of data")
       else
         match escapechar (r_dialect r) with
         | Some e => parse_add_char e
         | None => ret tt
         end ;;;
         parse_save_field ;;;
         r' <- get ;; ret (Some (fields r'))
   | _ => parse_save_field ;;; r' <- get ;; ret (Some (fields r'))
   end)%method.

(** The loop of [__next__] over the lines [lines] still to come. *)
Fixpoint next_record (lines : list string) : M reader (option (list string)) :=
  match lines with
  | [] => end_of_input
  | line :: lines' =>
      (r <- get ;;
       put {| r_dialect := r_dialect r; line_num := line_num r + 1;
              fields := fields r; field := field r; state := state r;
              input_iter := lines' |} ;;;
       let cs := list_ascii_of_string line in
       let empty_line :=
         match cs with
         | [] => true
         | c :: _ => is_lineterm c
         end in
       if bool_decide (state r = START_RECORD) && empty_line then ret None
       else
         parse_line cs ;;;
         r' <- get ;;
         if bool_decide (state r' = EAT_CRNL)
         then ret (Some (fields r'))
         else next_record lines')%method
  end.

(** Modelled from the spec: [reader::__next__], in csv.cpp, outside the
    visible sources. Section 4.3: "START_RECORD on an empty line ends
    iteration with no record; ... a full record is assembled when a line
    terminator is consumed outside a quoted field. ... [line_num]
    increments once per physical input line consumed". [None] is the end
    of the iteration. *)
Definition __next__ : M reader (option (list string)) :=
  (parse_reset ;;;
   r <- get ;;
   next_record (input_iter r))%method.

(** A reader at the start of the lines [lines]. *)
Definition reader_new (d : Excel) (lines : list string) : reader :=
  {| r_dialect := d; line_num := 0; fields := []; field := EmptyString;
     state := START_RECORD; input_iter := lines |}.

End Reader.

End Csv.

(* ================================================================= *)
(** * Part II: properties                                             *)
(* ================================================================= *)

(** ** Machine integers *)

Section MachineIntegers.
Context `{ss_int}.

Lemma pow2_double (bits : Z) : 0 < bits → 2 ^ bits = 2 * 2 ^ (bits - 1).
Proof.
  intros Hb. replace bits with (Z.succ (bits - 1)) at 1 by lia.
  apply Z.pow_succ_r. lia.
Qed.

(** A value of the type is what it wraps to. *)
Lemma wrap_small (bits z : Z) :
  0 < bits → - 2 ^ (bits - 1) ≤ z < 2 ^ (bits - 1) → wrap bits z = z.
Proof.
  intros Hb Hz. unfold wrap. rewrite (pow2_double bits Hb).
  rewrite Z.mod_small; lia.
Qed.

Lemma to_int_small (z : Z) : - int_max - 1 ≤ z ≤ int_max → to_int z = z.
Proof.
  intros Hz. apply wrap_small; [done|]. unfold int_max in Hz. lia.
Qed.

Lemma ss_bits_pos : 0 < ss_bits.
Proof. pose proof ss_bits_int. unfold int_bits in *. lia. Qed.

Lemma int_max_ss_max : int_max ≤ ss_max.
Proof.
  unfold int_max, ss_max. pose proof ss_bits_int.
  assert (2 ^ (int_bits - 1) ≤ 2 ^ (ss_bits - 1)); [|lia].
  apply Z.pow_le_mono_r; unfold int_bits in *; lia.
Qed.

Lemma ss_min_max : ss_min = - ss_max - 1.
Proof. unfold ss_min, ss_max. lia. Qed.

Lemma ss_max_nonneg : 0 ≤ ss_max.
Proof. pose proof int_max_ss_max. unfold int_max, int_bits in *. lia. Qed.

(** On values of the type [ss_add] is the sum, wrapped. *)
Lemma ss_add_wrap (j s : Z) :
  ss_min ≤ j ≤ ss_max → ss_min ≤ s ≤ ss_max →
  ss_add j s = wrap ss_bits (j + s).
Proof.
  intros Hj Hs. unfold ss_add. rewrite ss_min_max in *.
  destruct (Z.ltb_spec 0 s); destruct (Z.ltb_spec s 0);
    destruct (Z.ltb_spec ss_max (j + s));
    destruct (Z.ltb_spec (j + s) (- ss_max - 1)); cbn [andb orb];
    try reflexivity; try lia;
    symmetry; apply wrap_small; try apply ss_bits_pos; unfold ss_max in *; lia.
Qed.

Lemma ss_add_small (j s : Z) :
  (0 < s → j + s ≤ ss_max) → (s < 0 → ss_min ≤ j + s) → ss_add j s = j + s.
Proof.
  intros Hup Hdown. unfold ss_add.
  destruct (Z.ltb_spec 0 s); destruct (Z.ltb_spec s 0);
    destruct (Z.ltb_spec ss_max (j + s));
    destruct (Z.ltb_spec (j + s) ss_min); cbn [andb orb];
    try reflexivity; lia.
Qed.

End MachineIntegers.

(** ** Stride loops *)

Section StrideLoops.
Context `{ss_int}.
Context {S : Type}.
Implicit Types (cont : Z → bool) (body : Z → S → outcome S) (fuel : nat).

(** The [k]-th position of a walk is [j + k * s], and the loop condition
    holds at it. *)
Lemma walk_lookup cont fuel j s (k : nat) p :
  walk fuel cont j s !! k = Some p → p = j + Z.of_nat k * s ∧ cont p = true.
Proof.
  revert j k. induction fuel as [|fuel IH]; intros j k; simpl; [done|].
  destruct (cont j) eqn:Hc; [|done].
  destruct k as [|k]; simpl.
  - intros [= <-]. split; [lia|done].
  - intros Hk. apply IH in Hk as [-> Hp]. split; [lia|done].
Qed.

(** Conversely every [k] below the length of the walk is covered. *)
Lemma walk_lookup_lt cont fuel j s (k : nat) :
  (k < length (walk fuel cont j s))%nat →
  walk fuel cont j s !! k = Some (j + Z.of_nat k * s).
Proof.
  intros Hk. destruct (lookup_lt_is_Some_2 _ _ Hk) as [p Hp].
  by destruct (walk_lookup _ _ _ _ _ _ Hp) as [-> _].
Qed.

(** With a measure that every iteration decreases, fuel above the measure
    lets the walk end on its condition. *)
Lemma walk_complete cont (μ : Z → nat) s fuel j :
  (∀ j', cont j' = true → (μ (j' + s)%Z < μ j')%nat) →
  (μ j ≤ fuel)%nat →
  cont (j + Z.of_nat (length (walk fuel cont j s)) * s) = false.
Proof.
  intros Hμ. revert j. induction fuel as [|fuel IH]; intros j Hfuel; simpl.
  - destruct (cont j) eqn:Hc.
    + apply Hμ in Hc. lia.
    + by rewrite Z.mul_0_l, Z.add_0_r.
  - destruct (cont j) eqn:Hc; simpl.
    + apply Hμ in Hc. specialize (IH (j + s) ltac:(lia)).
      rewrite <- IH. f_equal. lia.
    + by rewrite Z.add_0_r.
Qed.

(** A loop whose walk ends on its condition runs its body over the walk. *)
Lemma for_stride_run_over cont body s fuel j (st : S) :
  cont (j + Z.of_nat (length (walk fuel cont j s)) * s) = false →
  for_stride fuel cont body j s st = run_over body (walk fuel cont j s) st.
Proof.
  revert j st. induction fuel as [|fuel IH]; intros j st; simpl.
  - rewrite Z.add_0_r. by intros ->.
  - destruct (cont j) eqn:Hc; simpl; [|done].
    intros Hend. destruct (body j st) as [st'| | |]; simpl; try done.
    apply IH. rewrite <- Hend. f_equal. lia.
Qed.

(** A walk that ended on its condition is not longer with more fuel. *)
Lemma walk_more_fuel cont fuel j s :
  cont (j + Z.of_nat (length (walk fuel cont j s)) * s) = false →
  walk (Datatypes.S fuel) cont j s = walk fuel cont j s.
Proof.
  revert j. induction fuel as [|fuel IH]; intros j.
  - cbn [walk length]. rewrite Z.add_0_r. by intros ->.
  - change (walk (Datatypes.S (Datatypes.S fuel)) cont j s)
      with (if cont j then j :: walk (Datatypes.S fuel) cont (j + s) s else []).
    cbn [walk]. destruct (cont j) eqn:Hc; [|done].
    cbn [length]. intros Hend. f_equal. apply IH.
    rewrite <- Hend. f_equal. lia.
Qed.

(** As long as the index does not wrap at a position of the walk, the loop
    over [__ss_int] is the loop over the integers. *)
Lemma for_stride_ss_ideal cont body s fuel j (st : S) :
  (∀ p, p ∈ walk fuel cont j s → ss_add p s = p + s) →
  for_stride_ss fuel cont body j s st = for_stride fuel cont body j s st.
Proof.
  revert j st. induction fuel as [|fuel IH]; intros j st Hfit; [done|].
  cbn [for_stride_ss for_stride]. destruct (cont j) eqn:Hc; [|done].
  rewrite Hfit by (cbn [walk]; rewrite Hc; apply list_elem_of_here).
  destruct (body j st) as [st'| | |]; cbn [obind]; try done.
  apply IH. intros p Hp. apply Hfit. cbn [walk]. rewrite Hc.
  by apply list_elem_of_further.
Qed.

End StrideLoops.

Section StridePositions.
Context `{ss_int}.
Implicit Types (l u s p : Z) (k : nat).

Lemma stride_up_end l u s :
  0 < s →
  (l + Z.of_nat (length (stride_positions l u s)) * s <? u) = false.
Proof.
  intros Hs. unfold stride_positions.
  destruct (Z.ltb_spec 0 s); [|lia].
  apply (walk_complete (λ j, j <? u) (λ j, Z.to_nat (u - j))); [|done].
  intros j' Hj'. apply Z.ltb_lt in Hj'. lia.
Qed.

Lemma stride_down_end l u s :
  s < 0 →
  (u <? l + Z.of_nat (length (stride_positions l u s)) * s) = false.
Proof.
  intros Hs. unfold stride_positions.
  destruct (Z.ltb_spec 0 s); [lia|].
  apply (walk_complete (λ j, u <? j) (λ j, Z.to_nat (j - u))); [|done].
  intros j' Hj'. apply Z.ltb_lt in Hj'. lia.
Qed.

(** The walk in closed form: position [k] is [l + k * s], and it is covered
    exactly when it is still before [u] in the direction of the step. *)
Lemma stride_positions_lookup l u s k p :
  s ≠ 0 →
  stride_positions l u s !! k = Some p
  ↔ p = l + Z.of_nat k * s ∧ (if 0 <? s then p < u else u < p).
Proof.
  intros Hs. split.
  - intros Hk. unfold stride_positions in Hk.
    destruct (Z.ltb_spec 0 s); apply walk_lookup in Hk as [-> Hc];
      apply Z.ltb_lt in Hc; done.
  - intros [-> Hc].
    assert (k < length (stride_positions l u s))%nat as Hlt.
    { destruct (Z.ltb_spec 0 s) as [Hpos|Hneg].
      - pose proof (stride_up_end l u s Hpos) as He.
        apply Z.ltb_ge in He. nia.
      - pose proof (stride_down_end l u s ltac:(lia)) as He.
        apply Z.ltb_ge in He. nia. }
    unfold stride_positions in *.
    destruct (0 <? s); by apply walk_lookup_lt.
Qed.

Lemma stride_positions_NoDup l u s : s ≠ 0 → NoDup (stride_positions l u s).
Proof.
  intros Hs. apply NoDup_alt. intros k1 k2 p H1 H2.
  apply stride_positions_lookup in H1 as [-> _]; [|done].
  apply stride_positions_lookup in H2 as [H2 _]; [|done]. nia.
Qed.

(** After normalisation the walk stays inside the buffer. *)
Lemma stride_positions_bounds l u s len p :
  s ≠ 0 →
  (if 0 <? s then 0 ≤ l ∧ u ≤ len else l ≤ len - 1 ∧ -1 ≤ u) →
  p ∈ stride_positions l u s → 0 ≤ p < len.
Proof.
  intros Hs Hb [k Hk]%list_elem_of_lookup_1.
  apply stride_positions_lookup in Hk as [-> Hc]; [|done].
  destruct (Z.ltb_spec 0 s); nia.
Qed.

(** Inside a buffer whose length and step fit, no index of the walk
    wraps. *)
Lemma stride_no_wrap l u s len p :
  s ≠ 0 → ss_min ≤ s → (0 < s → len + s ≤ ss_max) →
  (if 0 <? s then 0 ≤ l ∧ u ≤ len else l ≤ len - 1 ∧ -1 ≤ u) →
  p ∈ stride_positions l u s → ss_add p s = p + s.
Proof.
  intros Hs Hmin Hmax Hb Hp.
  pose proof (stride_positions_bounds l u s len p Hs Hb Hp) as Hpr.
  apply ss_add_small; lia.
Qed.

(** The two stride loops over [__ss_int] run their body over the positions
    of the walk when no index wraps. *)
Lemma for_stride_ss_up {S : Type} (body : Z → S → outcome S) l u s (st : S) :
  0 < s →
  (∀ p, p ∈ stride_positions l u s → ss_add p s = p + s) →
  for_stride_ss (Datatypes.S (Z.to_nat (u - l))) (λ j, j <? u) body l s st
  = run_over body (stride_positions l u s) st.
Proof.
  intros Hs Hfit. pose proof (stride_up_end l u s Hs) as Hend.
  unfold stride_positions in *. destruct (Z.ltb_spec 0 s); [|lia].
  pose proof (walk_more_fuel (λ j, j <? u) _ l s Hend) as Hw.
  rewrite for_stride_ss_ideal by (by rewrite Hw).
  rewrite for_stride_run_over; rewrite Hw; done.
Qed.

Lemma for_stride_ss_down {S : Type} (body : Z → S → outcome S) l u s (st : S) :
  s < 0 →
  (∀ p, p ∈ stride_positions l u s → ss_add p s = p + s) →
  for_stride_ss (Datatypes.S (Z.to_nat (l - u))) (λ j, u <? j) body l s st
  = run_over body (stride_positions l u s) st.
Proof.
  intros Hs Hfit. pose proof (stride_down_end l u s Hs) as Hend.
  unfold stride_positions in *. destruct (Z.ltb_spec 0 s); [lia|].
  pose proof (walk_more_fuel (λ j, u <? j) _ l s Hend) as Hw.
  rewrite for_stride_ss_ideal by (by rewrite Hw).
  rewrite for_stride_run_over; rewrite Hw; done.
Qed.

(** The size computed by [__setslice__] is the number of positions of the
    walk, when the distance between the endpoints and the step are values
    of [int] other than the least. *)
Lemma slicesize_walk l u s :
  s ≠ 0 → - int_max ≤ u - l ≤ int_max → - int_max ≤ s ≤ int_max →
  PyList.slicesize l u s
  = Return (Z.of_nat (length (stride_positions l u s))).
Proof.
  intros Hs Hul Hsi. set (n := length (stride_positions l u s)).
  assert (∀ k, (k < n)%nat → if 0 <? s then l + Z.of_nat k * s < u
                              else u < l + Z.of_nat k * s) as Hin.
  { intros k Hk. destruct (lookup_lt_is_Some_2 _ _ Hk) as [p Hp].
    by apply stride_positions_lookup in Hp as [-> Hc]. }
  assert (if 0 <? s then u ≤ l + Z.of_nat n * s else l + Z.of_nat n * s ≤ u)
    as Hend.
  { destruct (Z.ltb_spec 0 s).
    - apply Z.ltb_ge. by apply stride_up_end.
    - apply Z.ltb_ge. apply stride_down_end. lia. }
  assert (n = 0%nat ∨ if 0 <? s then l + (Z.of_nat n - 1) * s < u
                       else u < l + (Z.of_nat n - 1) * s) as Hlast.
  { destruct n as [|m]; [by left|right].
    specialize (Hin m ltac:(lia)).
    replace (Z.of_nat (Datatypes.S m) - 1) with (Z.of_nat m) by lia. done. }
  clearbody n. clear Hin.
  assert (0 < int_max) as Hmax by done.
  unfold PyList.slicesize.
  destruct (Z.eqb_spec l u) as [->|Hne].
  { f_equal. destruct (Z.ltb_spec 0 s); destruct Hlast; nia. }
  rewrite !to_int_small by (unfold __abs; repeat case_match; lia).
  unfold __abs.
  destruct (Z.ltb_spec 0 s) as [Hpos|Hneg]; cbn [andb].
  - destruct (Z.ltb_spec u l); cbn [andb]; [f_equal; destruct Hlast; nia|].
    destruct (Z.ltb_spec s 0); [lia|]. cbn [andb].
    destruct (Z.ltb_spec (u - l) 0); [lia|].
    destruct (Z.eqb_spec s 0); [lia|].
    destruct (Z.eqb_spec s (-1)); [lia|]. rewrite andb_false_r. cbn [orb].
    f_equal.
    pose proof (Z.quot_rem' (u - l) s) as Hqr.
    pose proof (Z.rem_bound_pos (u - l) s ltac:(lia) ltac:(lia)) as Hr.
    pose proof (Z.quot_pos (u - l) s ltac:(lia) ltac:(lia)) as Hq.
    destruct (Z.eqb_spec ((u - l) `rem` s) 0); cbn [negb];
      destruct Hlast; nia.
  - destruct (Z.ltb_spec s 0); [|lia]. cbn [andb].
    destruct (Z.ltb_spec l u); cbn [andb]; [f_equal; destruct Hlast; nia|].
    destruct (Z.ltb_spec (u - l) 0); [|lia].
    destruct (Z.eqb_spec (- s) 0); [lia|].
    destruct (Z.eqb_spec (- s) (-1)); [lia|]. rewrite andb_false_r. cbn [orb].
    f_equal.
    pose proof (Z.quot_rem' (- (u - l)) (- s)) as Hqr.
    pose proof (Z.rem_bound_pos (- (u - l)) (- s) ltac:(lia) ltac:(lia)) as Hr.
    pose proof (Z.quot_pos (- (u - l)) (- s) ltac:(lia) ltac:(lia)) as Hq.
    destruct (Z.eqb_spec ((- (u - l)) `rem` (- s)) 0); cbn [negb];
      destruct Hlast; nia.
Qed.

End StridePositions.

Module PyListProps.
Import PyList.

Section Indexing.
Context {T : Type}.
Implicit Types (units : list T) (i : Z) (v : T).

Lemma wrap_in_range (len i : Z) : 0 ≤ i < len → __wrap len i = Return i.
Proof.
  intros Hi. unfold __wrap.
  destruct (Z.ltb_spec i 0); [lia|].
  destruct (Z.ltb_spec i 0); [lia|].
  destruct (Z.leb_spec len i); [lia|]. reflexivity.
Qed.

Lemma wrap_negative (len i : Z) :
  i < 0 → 0 ≤ i + len → __wrap len i = Return (i + len).
Proof.
  intros Hneg Hi. unfold __wrap.
  destruct (Z.ltb_spec i 0); [|lia].
  destruct (Z.ltb_spec (i + len) 0); [lia|].
  destruct (Z.leb_spec len (i + len)); [lia|]. reflexivity.
Qed.

Lemma vec_read_write units i v :
  0 ≤ i < __len__ units →
  ∃ units', vec_write units i v = Return units'
            ∧ vec_read units' i = Return v
            ∧ length units' = length units.
Proof.
  intros Hi. unfold vec_write, vec_read, __len__ in *.
  destruct (Z.leb_spec 0 i); [|lia].
  destruct (Z.ltb_spec i (Z.of_nat (length units))); [|lia]. simpl.
  eexists; split; [reflexivity|].
  destruct (Z.ltb_spec i 0); [lia|].
  rewrite list_lookup_insert_eq by lia.
  split; [reflexivity|apply length_insert].
Qed.

Lemma setitem_at units i v :
  0 ≤ i < __len__ units →
  ∃ units', __setitem__ i v units = (Return tt, units')
            ∧ __getitem__ units' i = Return v
            ∧ length units' = length units.
Proof.
  intros Hi.
  destruct (vec_read_write units i v Hi) as (units' & Hw & Hr & Hlen).
  exists units'. unfold __setitem__, __getitem__, bind, get, lift, put.
  rewrite (wrap_in_range _ _ Hi), Hw. split; [reflexivity|].
  assert (__len__ units' = __len__ units) as Hl
    by (unfold __len__; congruence).
  rewrite Hl, (wrap_in_range _ _ Hi). simpl. auto.
Qed.

Lemma getitem_negative units i :
  i < 0 → 0 ≤ i + __len__ units →
  __getitem__ units i = __getitem__ units (i + __len__ units).
Proof.
  intros Hneg Hi. unfold __getitem__.
  rewrite (wrap_negative _ _ Hneg Hi), wrap_in_range by lia. reflexivity.
Qed.

Lemma setitem_negative units i v :
  i < 0 → 0 ≤ i + __len__ units →
  __setitem__ i v units = __setitem__ (i + __len__ units) v units.
Proof.
  intros Hneg Hi. unfold __setitem__, bind, get, lift.
  rewrite (wrap_negative _ _ Hneg Hi), wrap_in_range by lia. reflexivity.
Qed.

(** C4. For an index [i] that is in range after normalisation, [set(i, v)]
    returns normally and leaves a container of the same length in which
    [get(i)] returns [v]; and [get] and [set] with a negative [i] are the
    same calls as with [i + length]. *)
Theorem setitem_getitem_wrap units i v :
  0 ≤ i < __len__ units ∨ (i < 0 ∧ 0 ≤ i + __len__ units) →
  (∃ units', __setitem__ i v units = (Return tt, units')
             ∧ __getitem__ units' i = Return v
             ∧ length units' = length units)
  ∧ (i < 0 →
     __getitem__ units i = __getitem__ units (i + __len__ units)
     ∧ __setitem__ i v units = __setitem__ (i + __len__ units) v units).
Proof.
  intros [Hi | [Hneg Hi]].
  - split; [by apply setitem_at | lia].
  - split; [| intros _; split;
              [by apply getitem_negative | by apply setitem_negative]].
    destruct (setitem_at units (i + __len__ units) v) as (units' & Hs & Hg & Hl);
      [lia|].
    exists units'. rewrite setitem_negative by done.
    split; [done|]. split; [|done].
    assert (__len__ units' = __len__ units) as Hlen
      by (unfold __len__; congruence).
    rewrite getitem_negative by lia. by rewrite Hlen.
Qed.

End Indexing.

Lemma setitem_getitem_wrap_witness :
  (0 ≤ -1 < __len__ [10; 20; 30] ∨ (-1 < 0 ∧ 0 ≤ -1 + __len__ [10; 20; 30]))
  ∧ (∃ units', __setitem__ (-1) 7 [10; 20; 30] = (Return tt, units')
               ∧ __getitem__ units' (-1) = Return 7
               ∧ length units' = length [10; 20; 30]).
Proof.
  assert (0 ≤ -1 < __len__ [10; 20; 30]
          ∨ (-1 < 0 ∧ 0 ≤ -1 + __len__ [10; 20; 30])) as H
    by (right; vm_compute; split; [reflexivity | discriminate]).
  split; [exact H|].
  exact (proj1 (setitem_getitem_wrap [10; 20; 30] (-1) 7 H)).
Defined.


Section Slicing.
Context `{ss_int}.
Context {T : Type}.
Context (__eq : T → T → bool).
Implicit Types (units la : list T).

Lemma slicenr_full (x len : Z) :
  0 ≤ len → slicenr x 0 len 1 len = Return (0, len, 1).
Proof.
  intros Hlen. unfold slicenr, clamp_endpoint.
  rewrite andb_false_r.
  destruct (Z.testbit x 0), (Z.testbit x 1), (Z.testbit x 2);
    change (0 <? 1) with true; change (0 <? 0) with false; cbv iota;
    repeat case_match; try reflexivity; lia.
Qed.

Lemma eq_units_refl units :
  (∀ e, e ∈ units → __eq e e = true) → eq_units __eq units units = true.
Proof.
  induction units as [|e units IH]; intros Hrefl; [done|].
  simpl. rewrite Hrefl by set_solver. apply IH.
  intros e' He'. apply Hrefl. set_solver.
Qed.

(** C5. The full positive-step slice [slice(0, length, 1)] returns a new
    list holding the receiver's elements position by position, whichever
    of the three arguments the call marks as given, and [equals] holds
    between the copy and the receiver when the elements' equality is
    reflexive on them. [__slice__] only reads the receiver: it is a
    function of its buffer. *)
Theorem slice_full_is_copy units (x : Z) :
  (∀ e, e ∈ units → __eq e e = true) →
  ∃ c, __slice__ units x 0 (__len__ units) 1 = Return c
       ∧ length c = length units
       ∧ (∀ i : nat, c !! i = units !! i)
       ∧ __eq__ __eq c (ListObj units) = true.
Proof.
  intros Hrefl. exists units. split; [|split; [done|split; [done|]]].
  - unfold __slice__.
    rewrite slicenr_full by (unfold __len__; lia). simpl.
    destruct (Z.leb_spec 0 (__len__ units)); [|unfold __len__ in *; lia].
    rewrite Z.leb_refl. simpl.
    rewrite Z.sub_0_r. unfold __len__.
    by rewrite Nat2Z.id, drop_0, firstn_all.
  - unfold __eq__. rewrite Nat.eqb_refl. simpl. by apply eq_units_refl.
Qed.

End Slicing.

Lemma slice_full_is_copy_witness :
  (∀ e, e ∈ [10; 20; 30] → Z.eqb e e = true)
  ∧ (∃ c, __slice__ [10; 20; 30] 7 0 (__len__ [10; 20; 30]) 1 = Return c
          ∧ length c = length [10; 20; 30]
          ∧ (∀ i : nat, c !! i = [10; 20; 30] !! i)
          ∧ __eq__ Z.eqb c (ListObj [10; 20; 30]) = true).
Proof.
  assert (∀ e, e ∈ [10; 20; 30] → Z.eqb e e = true) as H
    by (intros e _; apply Z.eqb_refl).
  split; [exact H|].
  exact (slice_full_is_copy Z.eqb [10; 20; 30] 7 H).
Defined.

Section ExtendedSliceAssignment.
Context `{ss_int}.
Context {T : Type}.
Implicit Types (units : list T) (la : operand T) (ps : list Z).

Lemma slicenr_bounds (x l u s len : Z) :
  0 ≤ len → Z.testbit x 2 = true → s ≠ 0 →
  ∃ l' u', slicenr x l u s len = Return (l', u', s)
           ∧ (if 0 <? s then 0 ≤ l' ≤ len ∧ 0 ≤ u' ≤ len
              else -1 ≤ l' ≤ len - 1 ∧ -1 ≤ u' ≤ len - 1).
Proof.
  intros Hlen Hx Hs. unfold slicenr. rewrite Hx.
  destruct (Z.eqb_spec s 0); [done|]. simpl.
  eexists _, _. split; [reflexivity|].
  unfold clamp_endpoint.
  destruct (Z.testbit x 0), (Z.testbit x 1), (0 <? s);
    repeat case_match; lia.
Qed.

(** The stride loop of [__setslice__] over positions that are distinct and
    inside the buffer, with enough elements left in the replacement. *)
Lemma setslice_run_over la ps (i : Z) units :
  NoDup ps →
  (∀ p, p ∈ ps → 0 ≤ p < __len__ units) →
  0 ≤ i →
  i + Z.of_nat (length ps) ≤ __len__ (operand_units la units) →
  ∃ units',
    run_over (setslice_body la) ps (i, units)
      = Return (i + Z.of_nat (length ps), units')
    ∧ length units' = length units
    ∧ (∀ q : nat, Z.of_nat q ∉ ps → units' !! q = units !! q)
    ∧ (∀ b, la = Other b → ∀ (k : nat) p,
         ps !! k = Some p → units' !! Z.to_nat p = b !! Z.to_nat (i + Z.of_nat k)).
Proof.
  revert i units.
  induction ps as [|p ps IH]; intros i units Hnd Hin Hi Hn.
  - exists units. simpl. rewrite Z.add_0_r. repeat split; try done.
  - apply NoDup_cons in Hnd as [Hp Hnd].
    assert (0 ≤ p < __len__ units) as Hpr by (apply Hin, list_elem_of_here).
    assert (∃ e, vec_read (operand_units la units) i = Return e) as [e He].
    { unfold vec_read, __len__ in *. simpl in Hn.
      destruct (Z.ltb_spec i 0); [lia|].
      destruct (lookup_lt_is_Some_2 (operand_units la units) (Z.to_nat i))
        as [e ->]; [lia|]. by exists e. }
    set (units1 := <[Z.to_nat p := e]> units).
    assert (vec_write units p e = Return units1) as Hw.
    { unfold vec_write.
      destruct (Z.leb_spec 0 p); [|lia].
      by destruct (Z.ltb_spec p (__len__ units)); [|lia]. }
    assert (length units1 = length units) as Hl1 by apply length_insert.
    assert (__len__ (operand_units la units1) = __len__ (operand_units la units))
      as Hop by (destruct la; [unfold __len__; simpl; congruence|done]).
    destruct (IH (i + 1) units1) as (units' & Hrun & Hlen & Hout & Hval);
      [done| | lia | rewrite Hop; simpl in Hn; lia |].
    { intros p' Hp'. unfold __len__. rewrite Hl1.
      by apply Hin, list_elem_of_further. }
    exists units'. split; [|split; [congruence|split]].
    + simpl. rewrite He. simpl. rewrite Hw. simpl. rewrite Hrun.
      do 2 f_equal. lia.
    + intros q [Hqp Hq]%not_elem_of_cons. rewrite Hout by done.
      apply list_lookup_insert_ne. intros Heq. apply Hqp.
      rewrite <- Heq, Z2Nat.id by lia. done.
    + intros b -> k p' Hk. destruct k as [|k]; simpl in Hk.
      * injection Hk as <-.
        rewrite (Hout (Z.to_nat p)); [|by rewrite Z2Nat.id by lia].
        unfold units1. rewrite list_lookup_insert_eq by (unfold __len__ in Hpr; lia).
        rewrite Z.add_0_r. unfold vec_read in He. simpl in He.
        destruct (i <? 0); [done|].
        destruct (b !! Z.to_nat i); by inversion He.
      * rewrite (Hval b eq_refl k p' Hk). f_equal. lia.
Qed.

(** The receiver assigned to its own reversed slice: the loop writes
    position [len - 1 - m] from position [m] of the buffer as it is then, so
    the upper half ends as the mirror image of the lower half. *)
Lemma self_reverse_run units (qs : list Z) (m : nat) (B : list T) :
  length B = length units →
  (m + length qs = length units)%nat →
  (∀ (j : nat) p, qs !! j = Some p →
     p = Z.of_nat (length units) - 1 - Z.of_nat (m + j)) →
  (∀ q : nat, (q < length units)%nat →
     B !! q = units !! (if (q + m <? length units)%nat then q
                        else Nat.min q (length units - 1 - q))) →
  ∃ B', run_over (setslice_body Self) qs (Z.of_nat m, B)
        = Return (Z.of_nat (length units), B')
        ∧ ∀ q : nat, (q < length units)%nat →
            B' !! q = units !! Nat.min q (length units - 1 - q).
Proof.
  revert m B. induction qs as [|p qs IH]; intros m B HlenB Hm Hqs Hinv.
  - exists B. cbn [length] in Hm. split.
    + cbn [run_over]. do 3 f_equal. lia.
    + intros q Hq. rewrite Hinv by done.
      by destruct (Nat.ltb_spec (q + m) (length units)); [lia|].
  - cbn [length] in Hm.
    assert (p = Z.of_nat (length units) - 1 - Z.of_nat m) as Hp.
    { rewrite (Hqs 0%nat p eq_refl). lia. }
    destruct (lookup_lt_is_Some_2 B m) as [v Hv]; [lia|].
    set (B1 := <[Z.to_nat p := v]> B).
    destruct (IH (Datatypes.S m) B1) as (B' & Hrun & HB').
    + unfold B1. by rewrite length_insert.
    + lia.
    + intros j p' Hj. rewrite (Hqs (Datatypes.S j) p' Hj). lia.
    + intros q Hq. unfold B1.
      destruct (decide (q = Z.to_nat p)) as [->|Hne].
      * rewrite list_lookup_insert_eq by lia.
        destruct (Nat.ltb_spec (Z.to_nat p + Datatypes.S m) (length units));
          [lia|].
        rewrite <- Hv, (Hinv m) by lia.
        destruct (Nat.ltb_spec (m + m) (length units)); f_equal; lia.
      * rewrite list_lookup_insert_ne by done. rewrite Hinv by done.
        destruct (Nat.ltb_spec (q + m) (length units));
          destruct (Nat.ltb_spec (q + Datatypes.S m) (length units));
          try done; lia.
    + exists B'. split; [|done].
      cbn [run_over]. unfold setslice_body at 1. cbn [operand_units].
      unfold vec_read, vec_write, __len__.
      destruct (Z.ltb_spec (Z.of_nat m) 0); [lia|].
      rewrite Nat2Z.id, Hv. cbn [obind].
      destruct (Z.leb_spec 0 p); [|lia].
      destruct (Z.ltb_spec p (Z.of_nat (length B))); [|lia].
      cbn [andb obind]. fold B1.
      replace (Z.of_nat m + 1) with (Z.of_nat (Datatypes.S m)) by lia.
      exact Hrun.
Qed.

(** A walk over as many positions as the buffer has is the buffer
    backwards, so an assignment of the receiver to its own extended slice
    that passes the size check is the case above. *)
Lemma setslice_self units (l' u' s : Z) units' (i' : Z) :
  s ≠ 0 → s ≠ 1 →
  (if 0 <? s then 0 ≤ l' ≤ __len__ units ∧ 0 ≤ u' ≤ __len__ units
   else -1 ≤ l' ≤ __len__ units - 1 ∧ -1 ≤ u' ≤ __len__ units - 1) →
  length units = length (stride_positions l' u' s) →
  run_over (setslice_body Self) (stride_positions l' u' s) (0, units)
    = Return (i', units') →
  ∀ (k : nat) p,
    stride_positions l' u' s !! k = Some p →
    units' !! Z.to_nat p = units !! Z.to_nat (Z.of_nat k `min` p).
Proof.
  intros Hs0 Hs1 Hb Hlen Hrun.
  set (ps := stride_positions l' u' s) in *.
  assert (∀ (j : nat) p, ps !! j = Some p →
            p = l' + Z.of_nat j * s ∧ 0 ≤ p < __len__ units) as Hpos.
  { intros j p Hj. split.
    - by apply stride_positions_lookup in Hj as [-> _].
    - apply (stride_positions_bounds l' u' s); [done| |].
      + destruct (0 <? s); lia.
      + by apply list_elem_of_lookup_2 with j. }
  assert (∀ (j : nat) p, ps !! j = Some p →
            p = Z.of_nat (length units) - 1 - Z.of_nat (0 + j)) as Hrev.
  { intros j p Hj. pose proof (lookup_lt_Some _ _ _ Hj) as Hjlt.
    destruct (lookup_lt_is_Some_2 ps 0) as [p0 H0]; [lia|].
    destruct (lookup_lt_is_Some_2 ps (length ps - 1)) as [p1 H1]; [lia|].
    apply Hpos in H0 as [E0 B0]. apply Hpos in H1 as [E1 B1].
    apply Hpos in Hj as [Ej Bj]. unfold __len__ in *.
    rewrite <- Hlen in *.
    assert (length units = 1%nat ∨ s = -1) as [Hone | ->] by nia; nia. }
  destruct (self_reverse_run units ps 0 units) as (B' & Hrun' & HB').
  - done.
  - lia.
  - exact Hrev.
  - intros q Hq. rewrite Nat.add_0_r.
    by destruct (Nat.ltb_spec q (length units)); [|lia].
  - change (Z.of_nat 0) with 0 in Hrun'. rewrite Hrun in Hrun'.
    injection Hrun' as _ <-.
    intros k p Hk. pose proof (lookup_lt_Some _ _ _ Hk) as Hklt.
    pose proof (Hrev k p Hk) as Hp. rewrite HB' by lia.
    f_equal. lia.
Qed.

(** The stride loops of [__setslice__] after a size check that passed, when
    no index of the walk wraps. *)
Lemma setslice_loops (l' u' s : Z) la units :
  s ≠ 0 → ss_min ≤ s →
  (if 0 <? s then 0 ≤ l' ≤ __len__ units ∧ 0 ≤ u' ≤ __len__ units
   else -1 ≤ l' ≤ __len__ units - 1 ∧ -1 ≤ u' ≤ __len__ units - 1) →
  (∀ p, p ∈ stride_positions l' u' s → p + s ≤ ss_max) →
  (if 0 <? s
   then for_stride_ss (Datatypes.S (Z.to_nat (u' - l'))) (λ j, j <? u')
          (setslice_body la) l' s (0, units)
   else for_stride_ss (Datatypes.S (Z.to_nat (l' - u'))) (λ j, u' <? j)
          (setslice_body la) l' s (0, units))
  = run_over (setslice_body la) (stride_positions l' u' s) (0, units).
Proof.
  intros Hs0 Hmin Hb Hwalk.
  assert (∀ p, p ∈ stride_positions l' u' s → ss_add p s = p + s) as Hfit.
  { intros p Hp.
    assert (0 ≤ p < __len__ units) as Hpr.
    { apply (stride_positions_bounds l' u' s); [done| |done].
      destruct (0 <? s); lia. }
    apply ss_add_small; [intros _; by apply Hwalk | lia]. }
  destruct (Z.ltb_spec 0 s).
  - by apply for_stride_ss_up.
  - apply for_stride_ss_down; [lia|done].
Qed.

Lemma setslice_size (l' u' s : Z) units :
  s ≠ 0 → __len__ units ≤ int_max → - int_max ≤ s ≤ int_max →
  (if 0 <? s then 0 ≤ l' ≤ __len__ units ∧ 0 ≤ u' ≤ __len__ units
   else -1 ≤ l' ≤ __len__ units - 1 ∧ -1 ≤ u' ≤ __len__ units - 1) →
  slicesize l' u' s = Return (Z.of_nat (length (stride_positions l' u' s))).
Proof.
  intros Hs0 Hlen Hsi Hb.
  apply slicesize_walk; [done| |done]. destruct (0 <? s); lia.
Qed.

(** A length and a step that fit, as [stride_fits] has them, keep the
    walk inside [__ss_int]. *)
Lemma stride_fits_walk (l' u' s : Z) units :
  s ≠ 0 → stride_fits (__len__ units) s →
  (if 0 <? s then 0 ≤ l' ≤ __len__ units ∧ 0 ≤ u' ≤ __len__ units
   else -1 ≤ l' ≤ __len__ units - 1 ∧ -1 ≤ u' ≤ __len__ units - 1) →
  ss_min ≤ s ∧ ∀ p, p ∈ stride_positions l' u' s → p + s ≤ ss_max.
Proof.
  intros Hs0 (Hlen & Hsi & Hmax) Hb.
  pose proof int_max_ss_max as Hint. pose proof ss_min_max as Hmin.
  split; [lia|]. intros p Hp.
  assert (0 ≤ p < __len__ units) as Hpr.
  { apply (stride_positions_bounds l' u' s); [done| |done].
    destruct (0 <? s); lia. }
  lia.
Qed.

(** C1. An assignment to an extended slice (step given, not 0 and not 1),
    for a length and a step that [int] holds. If the sizes differ it throws
    ValueError with both sizes in the message and the container is as it
    was. When no position of the stride walk plus the step passes the
    greatest [__ss_int], so that the index of the loop does not wrap, it
    returns normally exactly when the replacement has as many elements as
    the walk covers positions; the length is then unchanged, every
    position outside the walk keeps its element, and the [k]-th position
    of the walk holds the replacement's [k]-th element; when the
    replacement is the receiver itself, that is the element the receiver
    has at [k] when the [k]-th write is made, which was its element at [k]
    or at the [k]-th position of the walk, whichever index is smaller. *)
Theorem setslice_extended units (x l u s : Z) la :
  Z.testbit x 2 = true → s ≠ 0 → s ≠ 1 →
  __len__ units ≤ int_max → - int_max ≤ s ≤ int_max →
  ∃ l' u',
    slicenr x l u s (__len__ units) = Return (l', u', s) ∧
    let ps := stride_positions l' u' s in
    let n := length (operand_units la units) in
    (n ≠ length ps →
       __setslice__ x l u s la units =
         (Throw (ValueError
            ("attempt to assign sequence of size " +:+ __str (Z.of_nat n) +:+
             " to extended slice of size " +:+ __str (Z.of_nat (length ps)))),
          units))
    ∧ ((∀ p, p ∈ ps → p + s ≤ ss_max) →
       ((∃ units', __setslice__ x l u s la units = (Return tt, units'))
          ↔ n = length ps)
       ∧ (n = length ps →
          ∃ units',
            __setslice__ x l u s la units = (Return tt, units')
            ∧ length units' = length units
            ∧ (∀ q : nat, Z.of_nat q ∉ ps → units' !! q = units !! q)
            ∧ (∀ b, la = Other b → ∀ (k : nat) p,
                 ps !! k = Some p → units' !! Z.to_nat p = b !! k)
            ∧ (la = Self → ∀ (k : nat) p,
                 ps !! k = Some p →
                 units' !! Z.to_nat p
                 = units !! Z.to_nat (Z.of_nat k `min` p)))).
Proof.
  intros Hx Hs0 Hs1 Hlenfit Hsfit.
  destruct (slicenr_bounds x l u s (__len__ units))
    as (l' & u' & Hnr & Hb); [unfold __len__; lia|done|done|].
  exists l', u'. split; [done|]. intros ps n.
  pose proof (setslice_size l' u' s units Hs0 Hlenfit Hsfit Hb) as Hsize.
  fold ps in Hsize.
  assert (n ≠ length ps →
       __setslice__ x l u s la units =
         (Throw (ValueError
            ("attempt to assign sequence of size " +:+ __str (Z.of_nat n) +:+
             " to extended slice of size " +:+ __str (Z.of_nat (length ps)))),
          units)) as Hfail.
  { intros Hne. unfold __setslice__, bind, get, lift. rewrite Hnr, Hx.
    destruct (Z.eqb_spec s 1); [done|]. cbn [andb negb fst snd].
    rewrite Hsize. unfold __len__. fold n.
    by destruct (Z.eqb_spec (Z.of_nat (length ps)) (Z.of_nat n)); [lia|]. }
  split; [done|]. intros Hwalk.
  assert (ss_min ≤ s) as Hmin.
  { pose proof int_max_ss_max. pose proof ss_min_max. lia. }
  pose proof (setslice_loops l' u' s la units Hs0 Hmin Hb Hwalk) as Hloops.
  fold ps in Hloops.
  assert (n = length ps →
       ∃ units',
         __setslice__ x l u s la units = (Return tt, units')
         ∧ length units' = length units
         ∧ (∀ q : nat, Z.of_nat q ∉ ps → units' !! q = units !! q)
         ∧ (∀ b, la = Other b → ∀ (k : nat) p,
              ps !! k = Some p → units' !! Z.to_nat p = b !! k)
         ∧ (la = Self → ∀ (k : nat) p,
              ps !! k = Some p →
              units' !! Z.to_nat p = units !! Z.to_nat (Z.of_nat k `min` p)))
    as Hok.
  { intros Heq.
    destruct (setslice_run_over la ps 0 units)
      as (units' & Hrun & Hlen & Hout & Hval).
    - by apply stride_positions_NoDup.
    - intros p. apply stride_positions_bounds; [done|].
      destruct (0 <? s); lia.
    - done.
    - unfold __len__. fold n. lia.
    - exists units'. split; [|split; [done|split; [done|split]]].
      + unfold __setslice__, bind, get, lift. rewrite Hnr, Hx.
        destruct (Z.eqb_spec s 1); [done|]. cbn [andb negb fst snd].
        rewrite Hsize. unfold __len__. fold n.
        destruct (Z.eqb_spec (Z.of_nat (length ps)) (Z.of_nat n)); [|lia].
        cbn [negb]. unfold ret. cbn [fst snd].
        destruct (Z.ltb_spec 0 s) as [Hpos|Hneg].
        * destruct (Z.ltb_spec 0 s); [|lia]. rewrite Hloops, Hrun. done.
        * destruct (Z.ltb_spec 0 s); [lia|]. rewrite Hloops, Hrun. done.
      + intros b Hb' k p Hk. rewrite (Hval b Hb' k p Hk).
        f_equal. lia.
      + intros -> k p Hk.
        exact (setslice_self units l' u' s units' _ Hs0 Hs1 Hb Heq Hrun k p Hk). }
  split; [|done]. split.
  - intros [units' Hret]. destruct (decide (n = length ps)) as [|Hne]; [done|].
    rewrite (Hfail Hne) in Hret. done.
  - intros Heq. destruct (Hok Heq) as (units' & Hret & _). by exists units'.
Qed.

End ExtendedSliceAssignment.

Lemma setslice_extended_witness :
  Z.testbit 7 2 = true ∧ 2 ≠ 0 ∧ 2 ≠ 1
  ∧ __len__ [10; 20; 30; 40; 50] ≤ int_max ∧ - int_max ≤ 2 ≤ int_max
  ∧ ∃ l' u',
      slicenr 7 0 5 2 (__len__ [10; 20; 30; 40; 50]) = Return (l', u', 2) ∧
      let ps := stride_positions l' u' 2 in
      let n := length (operand_units (Other [1; 2; 3]) [10; 20; 30; 40; 50]) in
      (∀ p, p ∈ ps → p + 2 ≤ ss_max)
      ∧ (n ≠ length ps →
         __setslice__ 7 0 5 2 (Other [1; 2; 3]) [10; 20; 30; 40; 50] =
           (Throw (ValueError
              ("attempt to assign sequence of size " +:+ __str (Z.of_nat n) +:+
               " to extended slice of size " +:+ __str (Z.of_nat (length ps)))),
            [10; 20; 30; 40; 50]))
      ∧ ((∃ units', __setslice__ 7 0 5 2 (Other [1; 2; 3]) [10; 20; 30; 40; 50]
                    = (Return tt, units'))
           ↔ n = length ps)
      ∧ (n = length ps →
         ∃ units',
           __setslice__ 7 0 5 2 (Other [1; 2; 3]) [10; 20; 30; 40; 50]
             = (Return tt, units')
           ∧ length units' = length [10; 20; 30; 40; 50]
           ∧ (∀ q : nat, Z.of_nat q ∉ ps
                → units' !! q = [10; 20; 30; 40; 50] !! q)
           ∧ (∀ b, Other [1; 2; 3] = Other b → ∀ (k : nat) p,
                ps !! k = Some p → units' !! Z.to_nat p = b !! k)
           ∧ (Other [1; 2; 3] = Self → ∀ (k : nat) p,
                ps !! k = Some p →
                units' !! Z.to_nat p
                = [10; 20; 30; 40; 50] !! Z.to_nat (Z.of_nat k `min` p))).
Proof.
  assert (__len__ [10; 20; 30; 40; 50] ≤ int_max) as Hlen
    by (vm_compute; discriminate).
  assert (- int_max ≤ 2 ≤ int_max) as Hs
    by (split; vm_compute; discriminate).
  split; [reflexivity|]. split; [discriminate|]. split; [discriminate|].
  split; [exact Hlen|]. split; [exact Hs|].
  destruct (setslice_extended [10; 20; 30; 40; 50] 7 0 5 2 (Other [1; 2; 3])
              eq_refl ltac:(discriminate) ltac:(discriminate) Hlen Hs)
    as (l' & u' & Hnr & Hrest).
  exists l', u'. split; [exact Hnr|].
  cbv zeta in *. destruct Hrest as [Hfail Hrest].
  assert (l' = 0 ∧ u' = 5) as [-> ->].
  { vm_compute in Hnr. by injection Hnr as <- <-. }
  assert (∀ p, p ∈ stride_positions 0 5 2 → p + 2 ≤ ss_max) as Hwalk.
  { intros p Hp. change (stride_positions 0 5 2) with [0; 2; 4] in Hp.
    assert (4 + 2 ≤ ss_max) by (vm_compute; discriminate).
    repeat (apply elem_of_cons in Hp as [-> | Hp]; [lia|]).
    by apply elem_of_nil in Hp. }
  destruct (Hrest Hwalk) as [Hiff Hok].
  split; [exact Hwalk|]. split; [exact Hfail|]. split; [exact Hiff|exact Hok].
Defined.

(** The assignment [a[0:5:2] = [1, 2, 3]] on [[10, 20, 30, 40, 50]] gives
    [[1, 20, 2, 40, 3]]. *)
Example setslice_extended_scenario :
  __setslice__ 7 0 5 2 (Other [1; 2; 3]) [10; 20; 30; 40; 50]
  = (Return tt, [1; 20; 2; 40; 3]).
Proof. vm_compute. reflexivity. Qed.

(** C1 as the specification states it, for every step, fails where the
    walk leaves [__ss_int]. With a 32-bit [__ss_int], the assignment
    [a[1:3:2147483647] = [9]] on [[1, 2, 3]] has a replacement of the
    size of the walk, which covers position 1 only; after the write at 1
    the index [1 + 2147483647] wraps to a negative value, the loop goes
    on and its next access is outside both buffers. *)
Lemma setslice_extended_overflow :
  Z.testbit 7 2 = true ∧ 2147483647 ≠ 1
  ∧ slicenr 7 1 3 2147483647 (__len__ [1; 2; 3]) = Return (1, 3, 2147483647)
  ∧ __len__ [1; 2; 3] ≤ int_max ∧ - int_max ≤ 2147483647 ≤ int_max
  ∧ length [9] = length (stride_positions 1 3 2147483647)
  ∧ ss_add 1 2147483647 = -2147483648
  ∧ __setslice__ 7 1 3 2147483647 (Other [9]) [1; 2; 3]
    = (Undefined, [1; 2; 3])
  ∧ ¬ ∃ units',
        __setslice__ 7 1 3 2147483647 (Other [9]) [1; 2; 3]
        = (Return tt, units').
Proof.
  assert (__setslice__ 7 1 3 2147483647 (Other [9]) [1; 2; 3]
          = (Undefined, [1; 2; 3])) as Hrun by (vm_compute; reflexivity).
  split; [reflexivity|]. split; [discriminate|].
  split; [vm_compute; reflexivity|].
  split; [vm_compute; discriminate|].
  split; [split; vm_compute; discriminate|].
  split; [vm_compute; reflexivity|]. split; [vm_compute; reflexivity|].
  split; [exact Hrun|].
  intros [units' Hret]. rewrite Hrun in Hret. discriminate.
Qed.

(** With a 64-bit [__ss_int] the size check itself goes wrong for a step
    that does not fit [int]: [absstep] keeps its low 32 bits, so for
    [a[0:3:4294967298] = [9]] on [[1, 2, 3]], whose walk covers position 0
    only, the size is computed with step 2 and the assignment is
    refused. *)
Example setslice_extended_truncation :
  length [9] = length (stride_positions 0 3 4294967298)
  ∧ @__setslice__ (mk_ss_int 64 ltac:(done)) Z 7 0 3 4294967298
      (Other [9]) [1; 2; 3]
    = (Throw (ValueError
         "attempt to assign sequence of size 1 to extended slice of size 2"),
       [1; 2; 3]).
Proof. split; vm_compute; reflexivity. Qed.

Section SliceDeletion.
Context {T : Type}.
Implicit Types (units rest v : list T).

Lemma delete_keep_spec rest (i l u s : Z) v :
  delete_keep rest i l u s v
  = v ++ keep_from
           (λ i, (i <? l) || (u <=? i) || negb ((i - l) `rem` s =? 0)) i rest.
Proof.
  revert i v. induction rest as [|e rest IH]; intros i v; simpl.
  - by rewrite app_nil_r.
  - rewrite IH. case_match; [|done]. by rewrite <- app_assoc.
Qed.

Lemma keep_from_ext (f g : Z → bool) (i : Z) rest :
  (∀ j, i ≤ j < i + Z.of_nat (length rest) → f j = g j) →
  keep_from f i rest = keep_from g i rest.
Proof.
  revert i. induction rest as [|e rest IH]; intros i Hfg; [done|].
  cbn [keep_from]. cbn [length] in Hfg.
  rewrite (Hfg i) by lia. rewrite IH; [done|]. intros j Hj. apply Hfg. lia.
Qed.

(** For an upward walk from a non-negative start, the test of the loop of
    [__delete__] keeps an index exactly when the walk does not cover it. *)
Lemma delete_test_up (l u s j : Z) :
  0 < s → 0 ≤ l → 0 ≤ j →
  (j <? l) || (u <=? j) || negb ((j - l) `rem` s =? 0)
  = bool_decide (j ∉ stride_positions l u s).
Proof.
  intros Hs Hl Hj. symmetry.
  destruct (Z.ltb_spec j l) as [Hjl|Hjl]; simpl.
  { apply bool_decide_eq_true_2. intros [k Hk]%list_elem_of_lookup_1.
    apply stride_positions_lookup in Hk as [-> _]; [|lia]. nia. }
  destruct (Z.leb_spec u j) as [Huj|Huj]; simpl.
  { apply bool_decide_eq_true_2. intros [k Hk]%list_elem_of_lookup_1.
    apply stride_positions_lookup in Hk as [-> Hc]; [|lia].
    destruct (Z.ltb_spec 0 s); lia. }
  destruct (Z.eqb_spec ((j - l) `rem` s) 0) as [Hr|Hr]; simpl.
  - apply bool_decide_eq_false_2. intros Hn. apply Hn.
    pose proof (Z.quot_rem' (j - l) s) as Hqr.
    pose proof (Z.quot_pos (j - l) s ltac:(lia) ltac:(lia)) as Hq.
    apply (list_elem_of_lookup_2 _ (Z.to_nat ((j - l) `quot` s))).
    apply stride_positions_lookup; [lia|].
    destruct (Z.ltb_spec 0 s); [|lia]. split; [|lia].
    rewrite Z2Nat.id by lia. nia.
  - apply bool_decide_eq_true_2. intros [k Hk]%list_elem_of_lookup_1.
    apply stride_positions_lookup in Hk as [Hk _]; [|lia]. apply Hr.
    replace (j - l) with (Z.of_nat k * s) by lia.
    apply Z.rem_mul. lia.
Qed.

(** With a positive step other than 1, [delete_slice] keeps, in their
    order, exactly the elements at the positions the stride walk does not
    cover. *)
Lemma delete_slice_positive_step units (x l u s : Z) :
  Z.testbit x 2 = true → 0 < s → s ≠ 1 →
  ∃ l' u',
    slicenr x l u s (__len__ units) = Return (l', u', s)
    ∧ __delete__ x l u s units
      = (Return tt,
         keep_from (λ i, bool_decide (i ∉ stride_positions l' u' s)) 0 units).
Proof.
  intros Hx Hs Hs1.
  destruct (slicenr_bounds x l u s (__len__ units))
    as (l' & u' & Hnr & Hb); [unfold __len__; lia|done|lia|].
  exists l', u'. split; [done|].
  unfold __delete__, bind, get, lift, put. rewrite Hnr.
  destruct (Z.eqb_spec s 1); [done|].
  rewrite delete_keep_spec. simpl. f_equal.
  apply keep_from_ext. intros j Hj.
  destruct (Z.ltb_spec 0 s); [|lia]. apply delete_test_up; lia.
Qed.

(** With step 1 and a range that is not inverted, [delete_slice] removes
    the contiguous range. *)
Lemma delete_slice_step_one units (x l u s l' u' : Z) :
  slicenr x l u s (__len__ units) = Return (l', u', 1) →
  0 ≤ l' ≤ u' → u' ≤ __len__ units →
  __delete__ x l u s units
  = (Return tt, take (Z.to_nat l') units ++ drop (Z.to_nat u') units).
Proof.
  intros Hnr Hl Hu.
  unfold __delete__, __delslice__, bind, get, lift, put, ret, vec_erase.
  rewrite Hnr. simpl.
  destruct (Z.ltb_spec (__len__ units) l'); [lia|].
  destruct (Z.ltb_spec (__len__ units) u'); [lia|].
  destruct (Z.leb_spec 0 l'); [|lia].
  destruct (Z.leb_spec l' u'); [|lia].
  by destruct (Z.leb_spec u' (__len__ units)); [|lia].
Qed.

End SliceDeletion.

(** The scenario of the specification: on [[10,20,30,40,50]],
    [delete_slice(1,4,2)] removes the indices 1 and 3. *)
Example delete_slice_scenario :
  __delete__ 7 1 4 2 [10; 20; 30; 40; 50] = (Return tt, [10; 30; 50]).
Proof. reflexivity. Qed.

(** C3. With a negative step the loop of [__delete__] does not remove the
    positions of the stride walk. On [[10,20,30,40,50]] the walk of
    [delete_slice(3,0,-1)] covers 3, 2 and 1, and the call removes nothing;
    the walk of [delete_slice(0,3,-1)] covers no position, and the call
    removes the indices 0, 1 and 2. *)
Theorem delete_slice_negative_step :
  (slicenr 7 3 0 (-1) (__len__ [10; 20; 30; 40; 50]) = Return (3, 0, -1)
   ∧ stride_positions 3 0 (-1) = [3; 2; 1]
   ∧ __delete__ 7 3 0 (-1) [10; 20; 30; 40; 50]
     = (Return tt, [10; 20; 30; 40; 50]))
  ∧ (slicenr 7 0 3 (-1) (__len__ [10; 20; 30; 40; 50]) = Return (0, 3, -1)
     ∧ stride_positions 0 3 (-1) = []
     ∧ __delete__ 7 0 3 (-1) [10; 20; 30; 40; 50] = (Return tt, [40; 50])).
Proof. repeat split. Qed.

Section Sorting.
Context {T U : Type}.
Context (lt : T → T → bool) (lt_key : U → U → bool).
Implicit Types (units : list T) (cmp : option (T → T → Z))
  (key : option (T → U)) (reverse : Z) (comp : T → T → bool).

Lemma StronglySorted_lookup_lt (R : relation T) units (i j : nat) a b :
  StronglySorted R units → (i < j)%nat →
  units !! i = Some a → units !! j = Some b → R a b.
Proof.
  intros Hs. revert i j.
  induction Hs as [|x l Hl IH Hx]; intros i j Hij Ha Hb; [done|].
  destruct j as [|j]; [lia|]. destruct i as [|i]; simpl in *.
  - injection Ha as <-. by apply (proj1 (Forall_lookup _ _) Hx j b).
  - apply (IH i j); [lia|done|done].
Qed.

(** For a comparator that is a strict weak ordering, which is what
    [std::sort] asks of it, some rearrangement meets the contract: the call
    has an outcome. *)
Lemma std_sort_exists comp units :
  (∀ a b, comp a b = true → comp b a = false) →
  (∀ a b c, comp a b = false → comp b c = false → comp a c = false) →
  ∃ units', std_sort comp units units'.
Proof.
  intros Hasym Htrans.
  set (R := λ a b : T, comp b a = false).
  assert (Total R) as Htotal.
  { intros a b. unfold R. destruct (comp b a) eqn:Hba; [|by left].
    right. by apply Hasym. }
  assert (Transitive R) as HtransR.
  { intros a b c Hab Hbc. unfold R in *. by apply (Htrans c b a). }
  assert (∀ a b, Decision (R a b)) as Hdec
    by (intros a b; unfold R; apply _).
  exists (merge_sort R units). split; [apply merge_sort_Permutation|].
  intros i j a b Hij Ha Hb.
  apply (StronglySorted_lookup_lt R (merge_sort R units) i j a b);
    [by apply StronglySorted_merge_sort|done..].
Qed.

(** C2, as the code has it. With an ordering that is a strict weak ordering,
    [sort] has an outcome, and every outcome is a permutation of the elements
    in which no element comes before an earlier one under the ordering in
    force: by key when a key function is given (the comparator is then not
    consulted), else by the comparator, else by the natural ordering, and
    the other way round when [reverse] is not zero. The order of elements
    that compare equal is not determined. *)
Theorem sort_permutation_ordered cmp key reverse units :
  (∀ a b, sort_comparator lt lt_key cmp key reverse a b = true →
          sort_comparator lt lt_key cmp key reverse b a = false) →
  (∀ a b c, sort_comparator lt lt_key cmp key reverse a b = false →
            sort_comparator lt lt_key cmp key reverse b c = false →
            sort_comparator lt lt_key cmp key reverse a c = false) →
  (∃ units', sort lt lt_key cmp key reverse units units')
  ∧ ∀ units',
      sort lt lt_key cmp key reverse units units' →
      units' ≡ₚ units
      ∧ ∀ (i j : nat) a b,
          (i < j)%nat → units' !! i = Some a → units' !! j = Some b →
          match key, cmp with
          | Some k, _ =>
              if reverse =? 0 then lt_key (k b) (k a) = false
              else lt_key (k a) (k b) = false
          | None, Some c =>
              if reverse =? 0 then ¬ c b a < 0 else ¬ 0 < c b a
          | None, None =>
              if reverse =? 0 then lt b a = false else lt a b = false
          end.
Proof.
  intros Hasym Htrans. split; [by apply std_sort_exists|].
  intros units' [Hperm Hord]. split; [done|].
  intros i j a b Hij Ha Hb. specialize (Hord i j a b Hij Ha Hb).
  unfold sort_comparator in Hord.
  destruct key as [k|], cmp as [c|], (reverse =? 0); simpl in Hord;
    unfold cpp_cmp_key, cpp_cmp_key_rev, cpp_cmp_custom, cpp_cmp_custom_rev,
      cpp_cmp, cpp_cmp_rev in Hord;
    try done; by apply Z.ltb_ge in Hord; lia.
Qed.

End Sorting.

Lemma sort_permutation_ordered_witness :
  (∀ a b : Z, sort_comparator Z.ltb Z.ltb None (@None (Z → Z)) 0 a b = true →
              sort_comparator Z.ltb Z.ltb None (@None (Z → Z)) 0 b a = false)
  ∧ (∀ a b c : Z,
       sort_comparator Z.ltb Z.ltb None (@None (Z → Z)) 0 a b = false →
       sort_comparator Z.ltb Z.ltb None (@None (Z → Z)) 0 b c = false →
       sort_comparator Z.ltb Z.ltb None (@None (Z → Z)) 0 a c = false)
  ∧ (∃ units', sort Z.ltb Z.ltb None (@None (Z → Z)) 0 [3; 1; 2] units').
Proof.
  assert (∀ a b : Z, sort_comparator Z.ltb Z.ltb None (@None (Z → Z)) 0 a b = true →
              sort_comparator Z.ltb Z.ltb None (@None (Z → Z)) 0 b a = false)
    as Hasym.
  { intros a b. unfold sort_comparator, cpp_cmp. simpl.
    intros H%Z.ltb_lt. apply Z.ltb_ge. lia. }
  assert (∀ a b c : Z,
       sort_comparator Z.ltb Z.ltb None (@None (Z → Z)) 0 a b = false →
       sort_comparator Z.ltb Z.ltb None (@None (Z → Z)) 0 b c = false →
       sort_comparator Z.ltb Z.ltb None (@None (Z → Z)) 0 a c = false)
    as Htrans.
  { intros a b c. unfold sort_comparator, cpp_cmp. simpl.
    intros H1%Z.ltb_ge H2%Z.ltb_ge. apply Z.ltb_ge. lia. }
  split; [exact Hasym|]. split; [exact Htrans|].
  exact (proj1 (sort_permutation_ordered Z.ltb Z.ltb None None 0 [3; 1; 2]
                  Hasym Htrans)).
Defined.

(** C2, as the specification has it, fails. The seventeen elements of
    [same_key_units] have one key; sorted by that key, with [reverse] or
    without, [std::sort] may leave them in the order [same_key_sorted], which
    is not the order they came in. *)
Lemma sort_by_key_not_stable :
  sort lexicographic Z.ltb None (Some fst) 0 same_key_units same_key_sorted
  ∧ sort lexicographic Z.ltb None (Some fst) 1 same_key_units same_key_sorted
  ∧ ¬ stable (sort_comparator lexicographic Z.ltb None (Some fst) 0)
        same_key_units same_key_sorted
  ∧ ¬ stable (sort_comparator lexicographic Z.ltb None (Some fst) 1)
        same_key_units same_key_sorted.
Proof.
  assert (same_key_sorted ≡ₚ same_key_units) as Hperm
    by (by apply (bool_decide_unpack _)).
  assert (Forall (λ e : Z * Z, e.1 = 0) same_key_sorted) as Hkeys
    by (repeat constructor).
  assert (∀ (i j : nat) (a b : Z * Z),
            same_key_sorted !! i = Some a → same_key_sorted !! j = Some b →
            (b.1 <? a.1) = false ∧ (a.1 <? b.1) = false) as Hord.
  { intros i j a b Ha Hb.
    rewrite (proj1 (Forall_lookup _ _) Hkeys i a Ha).
    by rewrite (proj1 (Forall_lookup _ _) Hkeys j b Hb). }
  split; [|split; [|split]].
  - split; [done|]. intros i j a b _ Ha Hb.
    apply (Hord i j a b Ha Hb).
  - split; [done|]. intros i j a b _ Ha Hb.
    apply (Hord i j a b Ha Hb).
  - intros Hst. specialize (Hst (0, 0)). vm_compute in Hst. discriminate.
  - intros Hst. specialize (Hst (0, 0)). vm_compute in Hst. discriminate.
Qed.

(** The scenario of the specification and some neighbours of it. *)
Example slice_scenario :
  __slice__ [10; 20; 30; 40; 50] 3 (-3) (-1) 1 = Return [30; 40].
Proof. vm_compute. reflexivity. Qed.

Example slice_reversed :
  __slice__ [10; 20; 30; 40; 50] 4 0 0 (-2) = Return [50; 30; 10].
Proof. vm_compute. reflexivity. Qed.

Example setslice_extended_ok :
  __setslice__ 7 0 5 2 (Other [1; 2; 3]) [10; 20; 30; 40; 50]
  = (Return tt, [1; 20; 2; 40; 3]).
Proof. vm_compute. reflexivity. Qed.

Example setslice_extended_mismatch :
  __setslice__ 7 0 5 2 (Other [1; 2]) [10; 20; 30; 40; 50]
  = (Throw (ValueError
       "attempt to assign sequence of size 2 to extended slice of size 3"),
     [10; 20; 30; 40; 50]).
Proof. vm_compute. reflexivity. Qed.

(** Assigning a list to its own reversed slice reads elements the loop has
    already written. *)
Example setslice_extended_self :
  __setslice__ 4 0 0 (-1) Self [1; 2; 3; 4] = (Return tt, [1; 2; 2; 1]).
Proof. vm_compute. reflexivity. Qed.

Example setslice_splice :
  __setslice__ 3 1 3 1 (Other [7; 8; 9]) [1; 2; 3; 4]
  = (Return tt, [1; 7; 8; 9; 4]).
Proof. vm_compute. reflexivity. Qed.

End PyListProps.

Module PyBytesProps.
Import Byte PyBytes.

Section Repr.
Implicit Types (s content : list byte) (c quote : byte).

Lemma byte_eqb_eq c c' : Byte.eqb c c' = true ↔ c = c'.
Proof.
  split; [apply Byte.byte_dec_bl | apply Byte.byte_dec_lb].
Qed.

Lemma find_from_spec s c (i : Z) :
  0 ≤ i →
  ((c ∉ s) ∧ find_from s c i = -1) ∨ ((c ∈ s) ∧ i ≤ find_from s c i).
Proof.
  revert i. induction s as [|c' s IH]; intros i Hi; cbn [find_from].
  - left. split; [apply not_elem_of_nil | done].
  - destruct (Byte.eqb c' c) eqn:Heq.
    + apply byte_eqb_eq in Heq as ->. right. split; [apply list_elem_of_here | lia].
    + assert (c' ≠ c) as Hne
        by (intros Hcc; apply byte_eqb_eq in Hcc; congruence).
      destruct (IH (i + 1)) as [[Hn Hf]|[Hn Hf]]; [lia| |].
      * left. split; [|done]. apply not_elem_of_cons. done.
      * right. split; [by apply list_elem_of_further | lia].
Qed.

Lemma find_absent (this : bytes) c :
  (find this c 0 =? -1) = negb (bool_decide (c ∈ unit this)).
Proof.
  unfold find. change (0 <? 0) with false. cbn [orb].
  destruct (Z.ltb_spec (Z.of_nat (length (unit this))) 0); [lia|].
  rewrite drop_0.
  destruct (find_from_spec (unit this) c 0) as [[Hn ->]|[Hn Hf]]; [done| |].
  - by rewrite bool_decide_eq_false_2.
  - rewrite bool_decide_eq_true_2 by done.
    by destruct (Z.eqb_spec (find_from (unit this) c 0) (-1)); [lia|].
Qed.

(** The three table and delimiter combinations [__repr__] can reach. *)
Lemma repr_byte_both c :
  repr_byte [x5c; x0a; x0d; x09; x27] [x5c; x6e; x72; x74; x27] c
  = spec_escape x27 c.
Proof. destruct c; vm_compute; reflexivity. Qed.

Lemma repr_byte_single_quote c :
  c ≠ x27 →
  repr_byte [x5c; x0a; x0d; x09] [x5c; x6e; x72; x74] c = spec_escape x27 c.
Proof. intros Hc. destruct c; try (vm_compute; reflexivity). done. Qed.

Lemma repr_byte_double_quote c :
  c ≠ x22 →
  repr_byte [x5c; x0a; x0d; x09] [x5c; x6e; x72; x74] c = spec_escape x22 c.
Proof. intros Hc. destruct c; try (vm_compute; reflexivity). done. Qed.

Lemma flat_map_ext_in (f g : byte → list byte) s :
  (∀ c, c ∈ s → f c = g c) → flat_map f s = flat_map g s.
Proof.
  induction s as [|c s IH]; intros Hfg; [done|]. simpl.
  rewrite (Hfg c) by apply list_elem_of_here.
  rewrite IH; [done|]. intros c' Hc'. by apply Hfg, list_elem_of_further.
Qed.

(** The stream holds no NUL byte, so building the [str] from its
    [c_str()] keeps all of it. *)
Lemma spec_escape_no_nul quote c :
  quote = x27 ∨ quote = x22 → x00 ∉ spec_escape quote c.
Proof.
  intros [-> | ->]; destruct c; vm_compute;
    intros H; repeat (apply elem_of_cons in H as [H|H]; [discriminate|]);
    by apply elem_of_nil in H.
Qed.

Lemma c_str_no_nul s : x00 ∉ s → c_str s = s.
Proof.
  induction s as [|c s IH]; [done|]. intros [Hc Hs]%not_elem_of_cons.
  cbn [c_str]. destruct (Byte.eqb c x00) eqn:Heq.
  - apply byte_eqb_eq in Heq. congruence.
  - by rewrite IH.
Qed.

Lemma spec_quote_cases content :
  spec_quote content = x27 ∨ spec_quote content = x22.
Proof. unfold spec_quote. case_match; auto. Qed.

Lemma spec_stream_no_nul content :
  x00 ∉ [x62; spec_quote content]
        ++ flat_map (spec_escape (spec_quote content)) content
        ++ [spec_quote content].
Proof.
  pose proof (spec_quote_cases content) as Hq.
  rewrite !not_elem_of_app. split; [|split].
  - destruct Hq as [-> | ->]; intros H;
      repeat (apply elem_of_cons in H as [H|H]; [discriminate|]);
      by apply elem_of_nil in H.
  - intros H. apply list_elem_of_In, in_flat_map in H as (c & _ & H).
    apply list_elem_of_In in H. by apply spec_escape_no_nul in H.
  - destruct Hq as [-> | ->]; intros H;
      repeat (apply elem_of_cons in H as [H|H]; [discriminate|]);
      by apply elem_of_nil in H.
Qed.

(** C6. [repr()] is the literal form of the specification: the delimiter
    is a single quote unless the content holds a single quote and no
    double quote; backslash, newline, carriage return and tab become their
    two-character escapes; the chosen delimiter is escaped where it occurs;
    every other byte outside 0x20-0x7E becomes a zero-padded two-digit
    hexadecimal escape; the remaining bytes stand for themselves. *)
Theorem repr_literal_form (this : bytes) :
  __repr__ this = spec_repr (unit this).
Proof.
  unfold __repr__, spec_repr.
  rewrite !find_absent, !negb_involutive.
  pose proof (spec_stream_no_nul (unit this)) as Hnul.
  unfold spec_quote in *.
  destruct (bool_decide (x27 ∈ unit this)) eqn:Hq;
    destruct (bool_decide (x22 ∈ unit this)) eqn:Hd; cbn [andb negb] in *.
  - rewrite (flat_map_ext_in _ (spec_escape x27)) by (intros; apply repr_byte_both).
    by rewrite c_str_no_nul.
  - apply bool_decide_eq_false in Hd.
    rewrite (flat_map_ext_in _ (spec_escape x22)).
    + by rewrite c_str_no_nul.
    + intros c Hc. apply repr_byte_double_quote. by intros ->.
  - apply bool_decide_eq_false in Hq.
    rewrite (flat_map_ext_in _ (spec_escape x27)).
    + by rewrite c_str_no_nul.
    + intros c Hc. apply repr_byte_single_quote. by intros ->.
  - apply bool_decide_eq_false in Hq.
    rewrite (flat_map_ext_in _ (spec_escape x27)).
    + by rewrite c_str_no_nul.
    + intros c Hc. apply repr_byte_single_quote. by intros ->.
Qed.

End Repr.

Section Hash.
Context (std_hash : list byte → Z).
Implicit Types (a b q : bytes).

Lemma hash_sentinel b :
  hash b = -1 →
  __hash__ std_hash b
  = (Return (std_hash (c_str (unit b))),
     {| unit := unit b; hash := std_hash (c_str (unit b)); frozen := frozen b |}).
Proof.
  intros Hh. unfold __hash__, bind, get, put, ret. by rewrite Hh.
Qed.

Lemma hash_memoized b :
  hash b ≠ -1 → __hash__ std_hash b = (Return (hash b), b).
Proof.
  intros Hh. unfold __hash__, bind, get, ret.
  by destruct (Z.eqb_spec (hash b) (-1)).
Qed.

(** Two calls in a row return one value, and the second leaves the object
    as the first left it. *)
Lemma hash_twice b :
  ∃ h b',
    __hash__ std_hash b = (Return h, b')
    ∧ __hash__ std_hash b' = (Return h, b')
    ∧ unit b' = unit b ∧ frozen b' = frozen b ∧ hash b' = h
    ∧ (hash b = -1 → h = std_hash (c_str (unit b)))
    ∧ (hash b ≠ -1 → h = hash b ∧ b' = b).
Proof.
  destruct (decide (hash b = -1)) as [Hs|Hm].
  - eexists _, _. split; [by apply hash_sentinel|].
    split; [|by repeat split].
    destruct (decide (std_hash (c_str (unit b)) = -1)) as [Hh|Hh].
    + rewrite hash_sentinel by done. done.
    + by rewrite hash_memoized.
  - exists (hash b), b. rewrite hash_memoized by done. by repeat split.
Qed.

Lemma hash_valid_result b :
  hash_valid std_hash b →
  ∃ b', __hash__ std_hash b = (Return (std_hash (c_str (unit b))), b')
        ∧ unit b' = unit b
        ∧ hash b' = std_hash (c_str (unit b)).
Proof.
  intros Hv. destruct (decide (hash b = -1)) as [Hs|Hm].
  - eexists. by rewrite hash_sentinel.
  - destruct Hv as [Hv|Hv]; [done|]. exists b.
    rewrite hash_memoized by done. by rewrite Hv.
Qed.

(** The constructors leave the sentinel, and [__hash__] keeps the field
    valid. *)
Lemma bytes_new_valid (frz : Z) : hash_valid std_hash (bytes_new frz).
Proof. by left. Qed.

Lemma bytes_copy_valid b (frz : Z) : hash_valid std_hash (bytes_copy b frz).
Proof. by left. Qed.

Lemma hash_keeps_valid b :
  hash_valid std_hash b → hash_valid std_hash (__hash__ std_hash b).2.
Proof.
  intros Hv. destruct (hash_valid_result b Hv) as (b' & -> & Hu & Hh).
  right. simpl. by rewrite Hu.
Qed.

Lemma eq_same_contents b q :
  unit b = unit q → hash b = -1 ∨ hash q = -1 ∨ hash b = hash q →
  __eq__ b q = true.
Proof.
  intros Hu Hh. unfold __eq__, size, memcmp_eq. rewrite Hu, Z.eqb_refl.
  cbn [negb orb].
  replace (negb (hash b =? -1) && negb (hash q =? -1)
           && negb (hash b =? hash q)) with false.
  - by apply bool_decide_eq_true_2.
  - destruct (Z.eqb_spec (hash b) (-1)), (Z.eqb_spec (hash q) (-1)),
      (Z.eqb_spec (hash b) (hash q)); try done. lia.
Qed.

(** C7. [hash()] twice on an unmodified value returns one result: the
    first call computes it from the contents when the field holds the
    sentinel and stores it, a later call finds the object as the first left
    it. And two values with the same contents are [equals], before and
    after both hashes have been memoized: the hash test of [__eq__] never
    rejects them. *)
Theorem hash_pure_eq_consistent a b q :
  (∃ h a',
     __hash__ std_hash a = (Return h, a')
     ∧ __hash__ std_hash a' = (Return h, a')
     ∧ unit a' = unit a ∧ hash a' = h
     ∧ (hash a = -1 → h = std_hash (c_str (unit a))))
  ∧ (hash_valid std_hash b → hash_valid std_hash q → unit b = unit q →
     ∃ h b' q',
       __hash__ std_hash b = (Return h, b')
       ∧ __hash__ std_hash q = (Return h, q')
       ∧ hash b' = h ∧ hash q' = h
       ∧ __eq__ b' q' = true ∧ __eq__ q' b' = true
       ∧ __eq__ b q = true ∧ __eq__ b' q = true ∧ __eq__ b q' = true).
Proof.
  split.
  - destruct (hash_twice a) as (h & a' & H1 & H2 & Hu & _ & Hh & Hs & _).
    by exists h, a'.
  - intros Hb Hq Hu.
    destruct (hash_valid_result b Hb) as (b' & Hhb & Hub & Hhb').
    destruct (hash_valid_result q Hq) as (q' & Hhq & Huq & Hhq').
    exists (std_hash (c_str (unit b))), b', q'.
    rewrite Hhb, Hhq, Hhb', Hhq', Hu.
    repeat split; apply eq_same_contents; try congruence.
    + right; right. congruence.
    + right; right. congruence.
    + destruct Hb as [Hb|Hb], Hq as [Hq|Hq]; auto. right; right. congruence.
    + destruct Hq as [Hq|Hq]; auto. right; right. congruence.
    + destruct Hb as [Hb|Hb]; auto. right; right. congruence.
Qed.

Lemma c_str_until_nul (p r : list byte) : c_str (p ++ x00 :: r) = c_str (p ++ [x00]).
Proof.
  induction p as [|c p IH]; [done|]. cbn [c_str app].
  destruct (Byte.eqb c x00); [done|]. by rewrite IH.
Qed.

(** C9. Two byte sequences that agree up to and including a NUL byte have
    the same hash, whatever follows the NUL: the hash is taken of the
    buffer read as a C string. *)
Theorem hash_ignores_bytes_after_nul b q (p r1 r2 : list byte) :
  hash_valid std_hash b → hash_valid std_hash q →
  unit b = p ++ x00 :: r1 → unit q = p ++ x00 :: r2 →
  ∃ b' q',
    __hash__ std_hash b = (Return (std_hash (c_str (p ++ [x00]))), b')
    ∧ __hash__ std_hash q = (Return (std_hash (c_str (p ++ [x00]))), q')
    ∧ c_str (p ++ [x00]) = c_str p.
Proof.
  intros Hb Hq Hub Huq.
  destruct (hash_valid_result b Hb) as (b' & Hhb & _).
  destruct (hash_valid_result q Hq) as (q' & Hhq & _).
  rewrite Hub, c_str_until_nul in Hhb. rewrite Huq, c_str_until_nul in Hhq.
  exists b', q'. split; [done|]. split; [done|].
  clear. induction p as [|c p IH]; [done|]. cbn [c_str app].
  destruct (Byte.eqb c x00); [done|]. by rewrite IH.
Qed.

End Hash.

Section Concat.
Context (default_frozen : Z).
Implicit Types (h : heap) (this c s : positive).

(** C10. [__iadd__] is [__add__]: it returns a pointer that was not
    allocated before, to a byte sequence holding the receiver's bytes
    followed by the argument's, with the hash not yet computed; every
    object that existed before the call, the receiver and the argument
    among them, is as it was. *)
Theorem iadd_is_add_fresh h this c (bt bc : bytes) :
  h !! this = Some bt → h !! c = Some bc →
  ∃ s h',
    __iadd__ default_frozen this c h = (Return s, h')
    ∧ __add__ default_frozen this c h = (Return s, h')
    ∧ h !! s = None
    ∧ h' !! s = Some {| unit := unit bt ++ unit bc; hash := -1;
                        frozen := default_frozen |}
    ∧ h' !! this = Some bt ∧ h' !! c = Some bc
    ∧ ∀ p, p ≠ s → h' !! p = h !! p.
Proof.
  intros Ht Hc. set (s := fresh (dom h)).
  assert (h !! s = None) as Hs by (apply not_elem_of_dom, is_fresh).
  assert (this ≠ s) as Hts by congruence.
  assert (c ≠ s) as Hcs by congruence.
  exists s, (<[s := {| unit := unit bt ++ unit bc; hash := -1;
                       frozen := default_frozen |}]> h).
  assert (__add__ default_frozen this c h
          = (Return s, <[s := {| unit := unit bt ++ unit bc; hash := -1;
                                 frozen := default_frozen |}]> h)) as Hadd.
  { unfold __add__, unit_append, bind, alloc, load, get, put, ret. fold s.
    rewrite lookup_insert_ne, Ht by done.
    rewrite lookup_insert_eq.
    rewrite lookup_insert_ne, lookup_insert_ne, Hc by done.
    rewrite lookup_insert_eq.
    by rewrite !insert_insert_eq. }
  split; [exact Hadd|]. split; [exact Hadd|]. split; [done|].
  split; [by rewrite lookup_insert_eq|].
  split; [by rewrite lookup_insert_ne|].
  split; [by rewrite lookup_insert_ne|].
  intros p Hp. by rewrite lookup_insert_ne.
Qed.

End Concat.

Lemma hash_pure_eq_consistent_witness :
  hash_valid (λ s, Z.of_nat (length s)) (mk_bytes [x61; x62] (-1) 1)
  ∧ hash_valid (λ s, Z.of_nat (length s)) (mk_bytes [x61; x62] 2 0)
  ∧ unit (mk_bytes [x61; x62] (-1) 1) = unit (mk_bytes [x61; x62] 2 0)
  ∧ ∃ h b' q',
      __hash__ (λ s, Z.of_nat (length s)) (mk_bytes [x61; x62] (-1) 1)
        = (Return h, b')
      ∧ __hash__ (λ s, Z.of_nat (length s)) (mk_bytes [x61; x62] 2 0)
        = (Return h, q')
      ∧ hash b' = h ∧ hash q' = h
      ∧ __eq__ b' q' = true ∧ __eq__ q' b' = true
      ∧ __eq__ (mk_bytes [x61; x62] (-1) 1) (mk_bytes [x61; x62] 2 0) = true
      ∧ __eq__ b' (mk_bytes [x61; x62] 2 0) = true
      ∧ __eq__ (mk_bytes [x61; x62] (-1) 1) q' = true.
Proof.
  split; [by left|]. split; [by right|]. split; [reflexivity|].
  apply (proj2 (hash_pure_eq_consistent (λ s, Z.of_nat (length s))
                  (mk_bytes [] (-1) 1)
                  (mk_bytes [x61; x62] (-1) 1) (mk_bytes [x61; x62] 2 0)));
    [by left | by right | reflexivity].
Defined.

Lemma hash_ignores_bytes_after_nul_witness :
  hash_valid (λ s, Z.of_nat (length s)) (mk_bytes [x61; x00; x62] (-1) 1)
  ∧ hash_valid (λ s, Z.of_nat (length s)) (mk_bytes [x61; x00; x63; x64] (-1) 1)
  ∧ ∃ b' q',
      __hash__ (λ s, Z.of_nat (length s)) (mk_bytes [x61; x00; x62] (-1) 1)
        = (Return (Z.of_nat (length (c_str ([x61] ++ [x00])))), b')
      ∧ __hash__ (λ s, Z.of_nat (length s)) (mk_bytes [x61; x00; x63; x64] (-1) 1)
        = (Return (Z.of_nat (length (c_str ([x61] ++ [x00])))), q')
      ∧ c_str ([x61] ++ [x00]) = c_str [x61].
Proof.
  split; [by left|]. split; [by left|].
  apply (hash_ignores_bytes_after_nul (λ s, Z.of_nat (length s))
           (mk_bytes [x61; x00; x62] (-1) 1)
           (mk_bytes [x61; x00; x63; x64] (-1) 1) [x61] [x62] [x63; x64]);
    [by left | by left | reflexivity | reflexivity].
Defined.

Lemma iadd_is_add_fresh_witness :
  (<[2%positive := mk_bytes [x62] (-1) 1]>
     (<[1%positive := mk_bytes [x61] 5 1]> (∅ : heap)))
    !! 1%positive = Some (mk_bytes [x61] 5 1)
  ∧ ∃ s h',
      __iadd__ 1 1%positive 2%positive
        (<[2%positive := mk_bytes [x62] (-1) 1]>
           (<[1%positive := mk_bytes [x61] 5 1]> (∅ : heap)))
      = (Return s, h')
      ∧ h' !! s = Some (mk_bytes [x61; x62] (-1) 1)
      ∧ h' !! 1%positive = Some (mk_bytes [x61] 5 1)
      ∧ h' !! 2%positive = Some (mk_bytes [x62] (-1) 1).
Proof.
  assert ((<[2%positive := mk_bytes [x62] (-1) 1]>
             (<[1%positive := mk_bytes [x61] 5 1]> (∅ : heap)))
            !! 1%positive = Some (mk_bytes [x61] 5 1)) as H1
    by (by rewrite lookup_insert_ne, lookup_insert_eq).
  assert ((<[2%positive := mk_bytes [x62] (-1) 1]>
             (<[1%positive := mk_bytes [x61] 5 1]> (∅ : heap)))
            !! 2%positive = Some (mk_bytes [x62] (-1) 1)) as H2
    by (by rewrite lookup_insert_eq).
  split; [exact H1|].
  destruct (iadd_is_add_fresh 1 _ 1%positive 2%positive _ _ H1 H2)
    as (s & h' & Hi & _ & _ & Hs & Ht & Hc & _).
  exists s, h'. by repeat split.
Defined.

Example repr_escapes :
  __repr__ (mk_bytes [x61; x00; x0a; x09; x5c; x1f; x7f; xff; x7e] (-1) 1)
  = "b'a\x00\n\t\\\x1f\x7f\xff~'"%string.
Proof. vm_compute. reflexivity. Qed.

Example repr_both_quotes :
  __repr__ (mk_bytes [x27; x22] (-1) 1)
  = String "b" (String "'" (String "\" (String "'" (String "034"
      (String "'" EmptyString))))).
Proof. vm_compute. reflexivity. Qed.

Example repr_single_quote_only :
  __repr__ (mk_bytes [x61; x27] (-1) 1)
  = String "b" (String "034" (String "a" (String "'" (String "034"
      EmptyString)))).
Proof. vm_compute. reflexivity. Qed.

End PyBytesProps.

Module CsvProps.
Import Csv.

Section SingleEmptyField.
Context (is_number : string → bool) (_field_limit : Z).
Implicit Types (d : Excel) (w : writer) (ts : list ascii).















End SingleEmptyField.



(** The round trip of the specification's record with the default dialect:
    the second field holds the delimiter, the third the quote character. *)
Example writerow_readback :
  let record :=
    ["a"; "b,c"; String "d" (String "034" (String "e" EmptyString));
     EmptyString]%string in
  ∃ w', writerow (λ _, false) record (mk_writer excel 0 [] []) = (Return tt, w')
        ∧ (__next__ 131072 (reader_new excel (output_file w'))).1
          = Return (Some record).
Proof. eexists. split; vm_compute; reflexivity. Qed.

End CsvProps.

(** ** list<T>: the remaining methods *)

Module PyListOpsProps.
Import PyList PyListOps.

Section Buffers.
Context {T : Type}.
Context (__eq : T → T → bool) (T0 : T).
Implicit Types (units b c pre post src : list T) (a e : T).

Lemma vec_resize_nil (n : Z) :
  0 ≤ n → vec_resize T0 [] n = Return (replicate (Z.to_nat n) T0).
Proof.
  intros Hn. unfold vec_resize. destruct (Z.ltb_spec n 0); [lia|].
  rewrite take_nil. simpl. by rewrite Nat.sub_0_r.
Qed.

Lemma vec_resize_grow units (n : Z) :
  __len__ units ≤ n →
  vec_resize T0 units n
  = Return (units ++ replicate (Z.to_nat (n - __len__ units)) T0).
Proof.
  unfold __len__. intros Hn. unfold vec_resize.
  destruct (Z.ltb_spec n 0); [lia|].
  rewrite take_ge by lia. do 3 f_equal. lia.
Qed.

(** Copying the first elements of [src] into a buffer, over the slots
    [filler] after [pre]. *)
Lemma vec_memcpy_prefix pre post src filler :
  (length filler ≤ length src)%nat →
  vec_memcpy (pre ++ filler ++ post) (__len__ pre) src 0 (__len__ filler)
  = Return (pre ++ take (length filler) src ++ post).
Proof.
  intros Hlen. unfold vec_memcpy, __len__.
  rewrite !length_app.
  destruct (Z.leb_spec 0 (Z.of_nat (length pre))); [|lia].
  destruct (Z.leb_spec 0 (Z.of_nat (length filler))); [|lia].
  destruct (Z.leb_spec (Z.of_nat (length pre) + Z.of_nat (length filler))
              (Z.of_nat (length pre + (length filler + length post))%nat));
    [|lia].
  destruct (Z.leb_spec (0 + Z.of_nat (length filler)) (Z.of_nat (length src)));
    [|lia].
  simpl. rewrite !Nat2Z.id, take_app_length. rewrite drop_0.
  replace (Z.to_nat (Z.of_nat (length pre) + Z.of_nat (length filler)))
    with (length pre + length filler)%nat by lia.
  rewrite (app_assoc pre filler post), drop_app_length'; [done|].
  by rewrite length_app.
Qed.

Lemma vec_memcpy_fill pre post src filler :
  length filler = length src →
  vec_memcpy (pre ++ filler ++ post) (__len__ pre) src 0 (__len__ src)
  = Return (pre ++ src ++ post).
Proof.
  intros Hlen.
  replace (__len__ src) with (__len__ filler) by (unfold __len__; lia).
  rewrite vec_memcpy_prefix by lia. by rewrite Hlen, firstn_all.
Qed.

(** One of the two copies of [__add__]: a single element is assigned, any
    other number of elements is copied, with the same result. *)
Lemma add_step pre post src :
  (if __len__ src =? 1
   then (e <~ vec_read src 0 ;;
         vec_write (pre ++ replicate (length src) T0 ++ post) (__len__ pre) e)
   else vec_memcpy (pre ++ replicate (length src) T0 ++ post)
          (__len__ pre) src 0 (__len__ src))%outcome
  = Return (pre ++ src ++ post).
Proof.
  destruct (Z.eqb_spec (__len__ src) 1) as [H1|H1].
  - destruct src as [|e [|e' src]]; unfold __len__ in H1; simpl in H1; try lia.
    simpl. unfold vec_write, __len__. rewrite !length_app. simpl.
    destruct (Z.leb_spec 0 (Z.of_nat (length pre))); [|lia].
    destruct (Z.ltb_spec (Z.of_nat (length pre))
                (Z.of_nat (length pre + S (length post)))); [|lia].
    simpl. rewrite Nat2Z.id.
    replace (length pre) with (length pre + 0)%nat at 1 by lia.
    by rewrite insert_app_r.
  - apply vec_memcpy_fill. by rewrite length_replicate.
Qed.

Lemma add_concat units b : __add__ T0 units b = Return (units ++ b).
Proof.
  unfold __add__.
  rewrite vec_resize_nil by (unfold __len__; lia). simpl.
  replace (Z.to_nat (__len__ units + __len__ b))
    with (length units + length b)%nat by (unfold __len__; lia).
  rewrite replicate_add.
  pose proof (add_step [] (replicate (length b) T0) units) as H1.
  simpl in H1. change (__len__ []) with 0 in H1. rewrite H1. simpl.
  pose proof (add_step units [] b) as H2.
  rewrite !app_nil_r in H2. rewrite H2. simpl. reflexivity.
Qed.

Lemma count_from_shift units a (c : Z) :
  count_from __eq units a c = c + count_from __eq units a 0.
Proof.
  revert c. induction units as [|x units IH]; intros c; simpl; [lia|].
  rewrite IH, (IH (if __eq a x then 0 + 1 else 0)).
  destruct (__eq a x); lia.
Qed.

Lemma count_app units b a :
  count __eq (units ++ b) a = count __eq units a + count __eq b a.
Proof.
  unfold count. induction units as [|x units IH]; simpl; [done|].
  rewrite (count_from_shift (units ++ b)), IH.
  rewrite (count_from_shift units a (if __eq a x then 0 + 1 else 0)). lia.
Qed.

Lemma count_bounds units a : 0 ≤ count __eq units a ≤ __len__ units.
Proof.
  unfold count, __len__. induction units as [|x units IH]; simpl; [lia|].
  rewrite count_from_shift. destruct (__eq a x); lia.
Qed.

Lemma contains_app units b a :
  __contains__ __eq (units ++ b) a
  = __contains__ __eq units a || __contains__ __eq b a.
Proof.
  unfold __contains__. induction units as [|x units IH]; simpl; [done|].
  by destruct (__eq x a).
Qed.

(** X1: [a + b]: the elements of [a] followed by those of [b], whether an
    operand has one element (assigned) or another number (copied); so lengths
    and counts add up and membership is membership in one of the two. *)
Theorem add_is_concatenation units b :
  ∃ c, __add__ T0 units b = Return c
       ∧ c = units ++ b
       ∧ __len__ c = __len__ units + __len__ b
       ∧ ∀ a, count __eq c a = count __eq units a + count __eq b a
              ∧ __contains__ __eq c a
                = __contains__ __eq units a || __contains__ __eq b a.
Proof.
  exists (units ++ b). split; [apply add_concat|]. split; [done|].
  split; [unfold __len__; rewrite length_app; lia|].
  intros a. split; [apply count_app | apply contains_app].
Qed.

(** X2: [a.extend(b)] and [a += b] leave in [a] what [a + b] returns, also when
    [b] is [a] itself. *)
Theorem extend_is_add (p : operand T) units :
  extend T0 p units = (Return tt, units ++ operand_units p units)
  ∧ __iadd__ T0 p units = (Return tt, units ++ operand_units p units)
  ∧ __add__ T0 units (operand_units p units)
    = Return (units ++ operand_units p units).
Proof.
  assert (extend T0 p units = (Return tt, units ++ operand_units p units)) as H.
  { unfold extend, bind, get, lift, put.
    rewrite vec_resize_grow by (unfold __len__; lia).
    replace (__len__ units + __len__ (operand_units p units) - __len__ units)
      with (__len__ (operand_units p units)) by lia.
    set (filler := replicate (Z.to_nat (__len__ (operand_units p units))) T0).
    assert (length filler = length (operand_units p units)) as Hf
      by (unfold filler, __len__; rewrite length_replicate; lia).
    replace (__len__ (operand_units p units)) with (__len__ filler)
      by (unfold __len__; lia).
    pose proof (vec_memcpy_prefix units []
                  (operand_units p (units ++ filler)) filler) as Hc.
    rewrite !app_nil_r in Hc. rewrite Hc.
    - do 2 f_equal. destruct p as [|b]; simpl in *.
      + rewrite Hf, take_app_length. done.
      + by rewrite Hf, firstn_all.
    - destruct p as [|b]; simpl in *; [rewrite length_app|]; lia. }
  split; [exact H|]. split; [exact H|]. apply add_concat.
Qed.

Lemma concat_replicate_snoc (n : nat) units :
  concat (replicate (Datatypes.S n) units) = concat (replicate n units) ++ units.
Proof.
  induction n as [|n IH]; [simpl; by rewrite app_nil_r|].
  change (concat (replicate (Datatypes.S (Datatypes.S n)) units))
    with (units ++ concat (replicate (Datatypes.S n) units)).
  rewrite IH at 1. by rewrite app_assoc.
Qed.

Lemma length_concat_replicate (n : nat) units :
  length (concat (replicate n units)) = (n * length units)%nat.
Proof.
  induction n as [|n IH]; simpl; [done|]. rewrite length_app. lia.
Qed.

Lemma concat_replicate_singleton (n : nat) e :
  concat (replicate n [e]) = replicate n e.
Proof. induction n as [|n IH]; simpl; [done|]. by rewrite IH. Qed.

(** A loop that fills a buffer with copies of [units], one per index from
    [i] up to [b]. *)
Lemma fill_loop (cont : Z → bool) (body : Z → list T → outcome (list T))
    units (lo b : Z) :
  (∀ j, cont j = (j <? b)) →
  (∀ i R, lo ≤ i < b →
     body i (concat (replicate (Z.to_nat i) units)
             ++ replicate (length units) T0 ++ R)
     = Return (concat (replicate (Z.to_nat (i + 1)) units) ++ R)) →
  ∀ (k fuel : nat) (i : Z),
    0 ≤ lo ≤ i → i + Z.of_nat k = b → (k ≤ fuel)%nat →
    for_stride fuel cont body i 1
      (concat (replicate (Z.to_nat i) units)
       ++ replicate (k * length units) T0)
    = Return (concat (replicate (Z.to_nat b) units)).
Proof.
  intros Hcont Hbody k. induction k as [|k IH]; intros fuel i Hi Hb Hfuel.
  - replace i with b by lia. simpl. rewrite app_nil_r.
    destruct fuel; simpl; rewrite Hcont, Z.ltb_irrefl; done.
  - destruct fuel as [|fuel]; [lia|]. simpl.
    rewrite Hcont. destruct (Z.ltb_spec i b); [|lia].
    rewrite replicate_add, Hbody by lia. simpl.
    apply IH; lia.
Qed.

Lemma mul_repeat units (b : Z) :
  __mul__ T0 units b = Return (concat (replicate (Z.to_nat b) units)).
Proof.
  unfold __mul__. destruct (Z.leb_spec b 0) as [Hb|Hb].
  { by replace (Z.to_nat b) with 0%nat by lia. }
  destruct (Z.eqb_spec (__len__ units) 1) as [H1|H1].
  - destruct units as [|e [|e' units]]; unfold __len__ in H1; simpl in H1;
      try lia.
    simpl. by rewrite concat_replicate_singleton.
  - rewrite vec_resize_nil by (unfold __len__; lia). simpl.
    pose proof (fill_loop (λ i, i <? b)
                  (λ i c, vec_memcpy c (i * __len__ units) units 0 (__len__ units))
                  units 0 b) as Hloop.
    replace (Z.to_nat (b * __len__ units))
      with (Z.to_nat b * length units)%nat by (unfold __len__; nia).
    change (replicate (Z.to_nat b * length units) T0)
      with (concat (replicate (Z.to_nat 0) units)
            ++ replicate (Z.to_nat b * length units) T0).
    apply (Hloop (λ _, eq_refl)); [|lia|lia|lia].
    intros i R Hi.
    replace (i * __len__ units)
      with (__len__ (concat (replicate (Z.to_nat i) units)))
      by (unfold __len__; rewrite length_concat_replicate; nia).
    rewrite vec_memcpy_fill by apply length_replicate.
    replace (Z.to_nat (i + 1)) with (Datatypes.S (Z.to_nat i)) by lia.
    by rewrite concat_replicate_snoc, <- app_assoc.
Qed.

(** X3: [a * n]: [n] copies of [a] one after the other, none when [n] is not
    positive; the element at position [i] is the element of [a] at [i] modulo
    its length. *)
Theorem mul_is_repetition units (b : Z) :
  ∃ c, __mul__ T0 units b = Return c
       ∧ c = concat (replicate (Z.to_nat b) units)
       ∧ __len__ c = Z.max 0 b * __len__ units
       ∧ ∀ i : nat, (i < length c)%nat →
           c !! i = units !! (i `mod` length units)%nat.
Proof.
  exists (concat (replicate (Z.to_nat b) units)).
  split; [apply mul_repeat|]. split; [done|]. split.
  - unfold __len__. rewrite length_concat_replicate. lia.
  - generalize (Z.to_nat b). intros n.
    induction n as [|n IH]; intros i Hi; simpl in *; [lia|].
    rewrite length_app in Hi.
    destruct (decide (i < length units)%nat) as [Hlt|Hge].
    + rewrite lookup_app_l by done. by rewrite Nat.mod_small.
    + rewrite lookup_app_r by lia. rewrite IH by lia.
      assert (length units ≠ 0)%nat as Hnz
        by (rewrite length_concat_replicate in Hi; nia).
      f_equal.
      replace i with ((i - length units) + 1 * length units)%nat at 2 by lia.
      by rewrite Nat.Div0.mod_add.
Qed.



(** X5: [__add_list_elt(l, u)] builds the list [append(u)] leaves in [l]: the
    elements of [l] followed by [u], in a fresh list. *)
Theorem add_list_elt_is_append units e :
  ∃ c, __add_list_elt T0 units e = Return c
       ∧ append e units = (Return tt, c)
       ∧ c = units ++ [e].
Proof.
  exists (units ++ [e]). split; [|done].
  unfold __add_list_elt.
  rewrite vec_resize_nil by (unfold __len__; lia). cbn [obind].
  replace (Z.to_nat (__len__ units + 1))
    with (length units + 1)%nat by (unfold __len__; lia).
  rewrite replicate_add. change (replicate 1 T0) with [T0].
  pose proof (vec_memcpy_fill [] [T0] units (replicate (length units) T0)) as H.
  cbn [app] in H. change (__len__ []) with 0 in H.
  rewrite H by (by rewrite length_replicate). cbn [obind].
  unfold vec_write, __len__. rewrite length_app. cbn [length].
  destruct (Z.leb_spec 0 (Z.of_nat (length units))); [|lia].
  destruct (Z.ltb_spec (Z.of_nat (length units))
              (Z.of_nat (length units + 1))); [|lia].
  cbn [andb]. rewrite Nat2Z.id.
  rewrite insert_app_r_alt by lia. by rewrite Nat.sub_diag.
Qed.

End Buffers.

Section StackAndSearch.
Context {T : Type}.
Context (__eq : T → T → bool).
Implicit Types (units b : list T) (a e x : T).

Lemma vec_erase_one units (i : Z) :
  0 ≤ i < __len__ units →
  vec_erase units i (i + 1) = Return (delete (Z.to_nat i) units).
Proof.
  intros Hi. unfold vec_erase.
  destruct (Z.leb_spec 0 i); [|lia].
  destruct (Z.leb_spec i (i + 1)); [|lia].
  destruct (Z.leb_spec (i + 1) (__len__ units)); [|lia].
  simpl. rewrite delete_take_drop. do 3 f_equal. lia.
Qed.

Lemma vec_read_lookup units (i : Z) e :
  0 ≤ i → units !! Z.to_nat i = Some e → vec_read units i = Return e.
Proof.
  intros Hi He. unfold vec_read.
  destruct (Z.ltb_spec i 0); [lia|]. by rewrite He.
Qed.

(** [pop(i)] at an index that is in range once a negative [i] has been
    offset by the length. *)
Lemma pop_at_in_range units (i : Z) :
  - __len__ units ≤ i < __len__ units →
  ∃ e, units !! Z.to_nat (if i <? 0 then __len__ units + i else i) = Some e
       ∧ pop_at i units
         = (Return e,
            delete (Z.to_nat (if i <? 0 then __len__ units + i else i)) units).
Proof.
  intros Hi. set (i' := if i <? 0 then __len__ units + i else i).
  assert (0 ≤ i' < __len__ units) as Hi'
    by (unfold i'; destruct (Z.ltb_spec i 0); lia).
  destruct (lookup_lt_is_Some_2 units (Z.to_nat i')) as [e He];
    [unfold __len__ in *; lia|].
  exists e. split; [done|].
  unfold pop_at, bind, get, lift, put, ret, throw. fold i'.
  destruct (Z.eqb_spec (__len__ units) 0); [lia|].
  destruct (Z.ltb_spec i' 0); [lia|].
  destruct (Z.leb_spec (__len__ units) i'); [lia|]. simpl.
  by rewrite (vec_read_lookup _ _ e), vec_erase_one by (done || lia).
Qed.

(** X6: [pop(i)] returns exactly for [-len <= i < len]: it then gives the
    element at the index (offset by the length when negative) and removes
    it, keeping the others in order. Otherwise it throws IndexError, "pop
    from empty list" on an empty list and "pop index out of range" on any
    other, and the list is as it was. *)
Theorem pop_at_behaviour units (i : Z) :
  ((∃ e units', pop_at i units = (Return e, units'))
     ↔ - __len__ units ≤ i < __len__ units)
  ∧ (- __len__ units ≤ i < __len__ units →
     ∃ e, units !! Z.to_nat (if i <? 0 then __len__ units + i else i) = Some e
          ∧ pop_at i units
            = (Return e,
               delete (Z.to_nat (if i <? 0 then __len__ units + i else i))
                 units))
  ∧ (units = [] →
     pop_at i units = (Throw (IndexError "pop from empty list"), units))
  ∧ (units ≠ [] → ¬ (- __len__ units ≤ i < __len__ units) →
     pop_at i units = (Throw (IndexError "pop index out of range"), units)).
Proof.
  assert (units = [] →
     pop_at i units = (Throw (IndexError "pop from empty list"), units))
    as Hempty by (by intros ->).
  assert (units ≠ [] → ¬ (- __len__ units ≤ i < __len__ units) →
     pop_at i units = (Throw (IndexError "pop index out of range"), units))
    as Hout.
  { intros Hne Hi. unfold pop_at, bind, get, throw, lift.
    assert (0 < __len__ units)
      by (destruct units; [done | unfold __len__; simpl; lia]).
    destruct (Z.eqb_spec (__len__ units) 0); [lia|].
    destruct (Z.ltb_spec i 0).
    - destruct (Z.ltb_spec (__len__ units + i) 0); [done|].
      by destruct (Z.leb_spec (__len__ units) (__len__ units + i)); [|lia].
    - destruct (Z.ltb_spec i 0); [lia|].
      by destruct (Z.leb_spec (__len__ units) i); [|lia]. }
  split; [|split; [apply pop_at_in_range|split; done]].
  split.
  - intros (e & units' & Hpop).
    destruct (decide (- __len__ units ≤ i < __len__ units)) as [|Hi]; [done|].
    destruct units as [|x units]; [by rewrite Hempty in Hpop|].
    rewrite Hout in Hpop; done.
  - intros Hi. destruct (pop_at_in_range units i Hi) as (e & _ & Hpop).
    by eexists _, _.
Qed.

(** X7: [pop()] and [pop(-1)] are one operation, on the empty list as well. *)
Theorem pop_is_pop_last units : pop units = pop_at (-1) units.
Proof.
  destruct (decide (units = [])) as [->|Hne]; [done|].
  assert (0 < __len__ units)
    by (destruct units; [done | unfold __len__; simpl; lia]).
  destruct (pop_at_in_range units (-1)) as (e & He & ->); [lia|].
  simpl in He.
  replace (__len__ units + -1) with (__len__ units - 1) in * by lia.
  unfold pop, bind, get, lift, put, ret, throw.
  destruct (Z.eqb_spec (__len__ units) 0); [lia|].
  rewrite (vec_read_lookup _ _ e) by (done || lia). simpl.
  rewrite delete_take_drop. unfold __len__.
  replace (Z.to_nat (Z.of_nat (length units) - 1))
    with (length units - 1)%nat by lia.
  rewrite (drop_ge units) by lia. by rewrite app_nil_r.
Qed.

(** X8: [append(a)] then [pop()] gives [a] back and restores the list. *)
Theorem append_pop units a :
  ∃ units', append a units = (Return tt, units')
            ∧ units' = units ++ [a]
            ∧ pop units' = (Return a, units).
Proof.
  exists (units ++ [a]). split; [done|]. split; [done|].
  unfold pop, bind, get, lift, put, ret, throw, __len__.
  rewrite length_app. simpl.
  destruct (Z.eqb_spec (Z.of_nat (length units + 1)) 0); [lia|].
  rewrite (vec_read_lookup _ _ a).
  - simpl. replace (length units + 1 - 1)%nat with (length units) by lia.
    by rewrite take_app_length.
  - lia.
  - replace (Z.to_nat (Z.of_nat (length units + 1) - 1)) with (length units)
      by lia.
    by rewrite list_lookup_middle.
Qed.

Lemma delete_middle_at units b x (n : nat) :
  n = length units → delete n (units ++ x :: b) = units ++ b.
Proof. intros ->. apply delete_middle. Qed.

Lemma insert_at units (m : Z) e :
  insert m e units
  = (Return tt,
     take (Z.to_nat (insert_position (__len__ units) m)) units
     ++ e :: drop (Z.to_nat (insert_position (__len__ units) m)) units).
Proof.
  unfold insert, insert_position, bind, get, lift, put, vec_insert.
  assert (0 ≤ __len__ units) by (unfold __len__; lia).
  destruct (Z.ltb_spec m 0).
  - destruct (Z.ltb_spec (__len__ units + m) 0).
    + destruct (Z.leb_spec (__len__ units) 0).
      * replace (__len__ units) with 0 by lia. simpl.
        by replace (Z.max 0 (0 + m)) with 0 by lia.
      * simpl. rewrite Z.max_l by lia.
        by destruct (Z.leb_spec 0 (__len__ units)); [|lia].
    + destruct (Z.leb_spec (__len__ units) (__len__ units + m)); [lia|].
      rewrite Z.max_r by lia.
      destruct (Z.leb_spec 0 (__len__ units + m)); [|lia].
      by destruct (Z.leb_spec (__len__ units + m) (__len__ units)); [|lia].
  - destruct (Z.ltb_spec m 0); [lia|].
    destruct (Z.leb_spec (__len__ units) m).
    + rewrite Z.min_r by lia.
      destruct (Z.leb_spec 0 (__len__ units)); [|lia].
      by rewrite Z.leb_refl.
    + rewrite Z.min_l by lia.
      destruct (Z.leb_spec 0 m); [|lia].
      by destruct (Z.leb_spec m (__len__ units)); [|lia].
Qed.

(** X9: [insert(m, e)] never fails, whatever [m] is: [e] goes to position
    [m] (offset by the length when negative) brought into [0..len], the
    elements from there on move up by one, and [pop] at that position gives
    [e] back and restores the list. *)
Theorem insert_then_pop units (m : Z) e :
  ∃ (p : Z) units',
    0 ≤ p ≤ __len__ units
    ∧ p = insert_position (__len__ units) m
    ∧ insert m e units = (Return tt, units')
    ∧ units' = take (Z.to_nat p) units ++ e :: drop (Z.to_nat p) units
    ∧ __len__ units' = __len__ units + 1
    ∧ pop_at p units' = (Return e, units).
Proof.
  assert (0 ≤ insert_position (__len__ units) m ≤ __len__ units) as Hp
    by (unfold insert_position, __len__; destruct (Z.ltb_spec m 0); lia).
  set (p := insert_position (__len__ units) m) in *.
  exists p, (take (Z.to_nat p) units ++ e :: drop (Z.to_nat p) units).
  split; [done|]. split; [done|]. split; [apply insert_at|]. split; [done|].
  assert (length (take (Z.to_nat p) units) = Z.to_nat p) as Htl
    by (rewrite length_take; unfold __len__ in Hp; lia).
  assert (__len__ (take (Z.to_nat p) units ++ e :: drop (Z.to_nat p) units)
          = __len__ units + 1) as Hlen.
  { unfold __len__ in *. rewrite length_app, Htl. simpl.
    rewrite length_drop. lia. }
  split; [done|].
  destruct (pop_at_in_range
              (take (Z.to_nat p) units ++ e :: drop (Z.to_nat p) units) p)
    as (e' & He' & ->); [lia|].
  destruct (Z.ltb_spec p 0); [lia|].
  rewrite (list_lookup_middle _ _ _ (Z.to_nat p)) in He' by done.
  injection He' as <-. f_equal.
  rewrite delete_middle_at by done. apply take_drop.
Qed.

(** X10: [pop(i)] then [insert] of the element at the same place restores the
    list. *)
Theorem pop_then_insert units (i : Z) e units' :
  0 ≤ i →
  pop_at i units = (Return e, units') →
  insert i e units' = (Return tt, units).
Proof.
  intros Hi Hpop.
  destruct (decide (- __len__ units ≤ i < __len__ units)) as [Hr|Hr].
  - destruct (pop_at_in_range units i Hr) as (e' & He' & Hpop').
    rewrite Hpop' in Hpop. destruct (Z.ltb_spec i 0); [lia|].
    injection Hpop as -> <-.
    rewrite insert_at.
    assert (__len__ (delete (Z.to_nat i) units) = __len__ units - 1) as Hl.
    { unfold __len__ in *. rewrite length_delete by (by eexists). lia. }
    unfold insert_position. rewrite Hl.
    destruct (Z.ltb_spec i 0); [lia|]. rewrite Z.min_l by lia.
    assert (length (take (Z.to_nat i) units) = Z.to_nat i) as Htl
      by (rewrite length_take; unfold __len__ in Hr; lia).
    rewrite delete_take_drop.
    rewrite take_app_length', drop_app_length' by done.
    by rewrite take_drop_middle.
  - exfalso. unfold pop_at, bind, get, throw, lift in Hpop.
    cbn [fst snd] in Hpop.
    destruct (Z.eqb_spec (__len__ units) 0); [done|].
    destruct (Z.ltb_spec i 0); [lia|].
    destruct (Z.ltb_spec i 0); [lia|].
    destruct (Z.leb_spec (__len__ units) i); [done|]. lia.
Qed.

End StackAndSearch.

Section Lookup.
Context {T : Type}.
Context (__eq : T → T → bool).
Implicit Types (units b rest : list T) (a e x : T).

Lemma remove_find_none rest e (i : Z) :
  remove_find __eq rest e i = None ↔ contains_from __eq rest e = false.
Proof.
  revert i. induction rest as [|x rest IH]; intros i; simpl; [done|].
  destruct (__eq x e); [done|]. apply IH.
Qed.

Lemma remove_find_some rest e (i j : Z) :
  remove_find __eq rest e i = Some j →
  ∃ before x after,
    rest = before ++ x :: after
    ∧ j = i + Z.of_nat (length before)
    ∧ __eq x e = true
    ∧ Forall (λ y, __eq y e = false) before.
Proof.
  revert i. induction rest as [|x rest IH]; intros i; simpl; [done|].
  destruct (__eq x e) eqn:Hx.
  - intros [= <-]. exists [], x, rest. repeat split; [simpl; lia|done|done].
  - intros (before & y & after & -> & -> & Hy & Hb)%IH.
    exists (x :: before), y, after. repeat split; [simpl; lia|done|].
    by constructor.
Qed.

(** X11: [remove(e)] throws ValueError exactly when [__contains__(e)] is false,
    and the list is then as it was. Otherwise it removes the first element
    equal to [e], and only that one: the elements before it are not equal to
    [e], and they and the elements after it stay in order. *)
Theorem remove_first_equal units e :
  (__contains__ __eq units e = false →
   remove __eq e units
   = (Throw (ValueError "list.remove(x): x not in list"), units))
  ∧ (__contains__ __eq units e = true →
     ∃ before x after,
       units = before ++ x :: after
       ∧ __eq x e = true
       ∧ Forall (λ y, __eq y e = false) before
       ∧ remove __eq e units = (Return tt, before ++ after)).
Proof.
  unfold __contains__, remove, bind, get, lift, put, throw. split.
  - intros Hc. by rewrite (proj2 (remove_find_none units e 0) Hc).
  - intros Hc. destruct (remove_find __eq units e 0) as [j|] eqn:Hf.
    + destruct (remove_find_some _ _ _ _ Hf)
        as (before & x & after & -> & -> & Hx & Hb).
      exists before, x, after. repeat split; try done.
      rewrite vec_erase_one.
      * rewrite Z.add_0_l, Nat2Z.id. by rewrite delete_middle.
      * unfold __len__. rewrite length_app. simpl. lia.
    + apply remove_find_none in Hf. congruence.
Qed.

(** The loop of [index] over a range inside the buffer. *)
Lemma index_loop_spec units a (fuel : nat) (i e : Z) :
  0 ≤ i → e ≤ __len__ units → (Z.to_nat (e - i) ≤ fuel)%nat →
  (index_loop __eq fuel units a i e
     = Throw (ValueError "list.index(x): x not in list")
   ∧ ∀ (j : Z) x, i ≤ j < e → units !! Z.to_nat j = Some x → __eq a x = false)
  ∨ (∃ (r : Z) x,
       index_loop __eq fuel units a i e = Return r
       ∧ i ≤ r < e
       ∧ units !! Z.to_nat r = Some x ∧ __eq a x = true
       ∧ ∀ (j : Z) y, i ≤ j < r → units !! Z.to_nat j = Some y →
           __eq a y = false).
Proof.
  revert i. induction fuel as [|fuel IH]; intros i Hi He Hfuel; simpl.
  - destruct (Z.ltb_spec i e); [lia|]. left. split; [done|]. intros; lia.
  - destruct (Z.ltb_spec i e) as [Hlt|Hge].
    + destruct (lookup_lt_is_Some_2 units (Z.to_nat i)) as [x Hx];
        [unfold __len__ in He; lia|].
      unfold vec_read. destruct (Z.ltb_spec i 0); [lia|]. rewrite Hx. simpl.
      destruct (__eq a x) eqn:Hax.
      * right. exists i, x.
        repeat split; first [done | lia | (intros; lia)].
      * destruct (IH (i + 1)) as [[Hthrow Hnone]|(r & y & Hr & Hrange & Hy & Hay & Hbefore)];
          [lia|done|lia| |].
        -- left. split; [done|]. intros j z Hj Hz.
           destruct (decide (j = i)) as [->|]; [congruence|].
           apply (Hnone j); [lia|done].
        -- right. exists r, y. repeat split; try done; try lia.
           intros j z Hj Hz.
           destruct (decide (j = i)) as [->|]; [congruence|].
           apply (Hbefore j); [lia|done].
    + left. split; [done|]. intros; lia.
Qed.

(** X12: [index(a, s, e)], whatever [s] and [e] are, looks only at positions of
    the buffer: it returns the least position of the normalised range whose
    element [a] is equal to, and throws ValueError when the range has
    none. *)
Theorem index_first_in_range units a (s e : Z) :
  ∃ lo hi,
    slicenr 7 s e 1 (__len__ units) = Return (lo, hi, 1)
    ∧ 0 ≤ lo ≤ __len__ units ∧ 0 ≤ hi ≤ __len__ units
    ∧ ((index __eq units a s e
          = Throw (ValueError "list.index(x): x not in list")
        ∧ ∀ (j : Z) x, lo ≤ j < hi → units !! Z.to_nat j = Some x →
            __eq a x = false)
       ∨ (∃ (r : Z) x,
            index __eq units a s e = Return r
            ∧ lo ≤ r < hi
            ∧ units !! Z.to_nat r = Some x ∧ __eq a x = true
            ∧ ∀ (j : Z) y, lo ≤ j < r → units !! Z.to_nat j = Some y →
                __eq a y = false)).
Proof.
  destruct (PyListProps.slicenr_bounds 7 s e 1 (__len__ units))
    as (lo & hi & Hnr & Hb); [unfold __len__; lia|done|done|].
  simpl in Hb. exists lo, hi. split; [done|]. split; [lia|]. split; [lia|].
  unfold index. rewrite Hnr. simpl.
  apply index_loop_spec; lia.
Qed.

Lemma count_zero units a :
  count __eq units a = 0 ↔ Forall (λ x, __eq a x = false) units.
Proof.
  unfold count. induction units as [|x units IH]; simpl; [done|].
  rewrite count_from_shift.
  assert (0 ≤ count_from __eq units a 0).
  { clear. induction units as [|y units IH]; simpl; [lia|].
    rewrite count_from_shift. destruct (__eq a y); lia. }
  split.
  - intros Hc. destruct (__eq a x) eqn:Hx; [lia|].
    constructor; [done|]. apply IH. lia.
  - intros [Hx Hu]%Forall_cons. rewrite Hx. apply IH in Hu. lia.
Qed.

(** X13: [index(a)] throws ValueError exactly when [count(a)] is 0; otherwise it
    returns the first position whose element [a] is equal to. *)
Theorem index_iff_count units a :
  (count __eq units a = 0
   ∧ index_1 __eq units a = Throw (ValueError "list.index(x): x not in list"))
  ∨ (0 < count __eq units a
     ∧ ∃ (r : Z) x,
         index_1 __eq units a = Return r
         ∧ 0 ≤ r < __len__ units
         ∧ units !! Z.to_nat r = Some x ∧ __eq a x = true
         ∧ ∀ (j : Z) y, 0 ≤ j < r → units !! Z.to_nat j = Some y →
             __eq a y = false).
Proof.
  unfold index_1, index.
  rewrite PyListProps.slicenr_full by (unfold __len__; lia). simpl.
  destruct (index_loop_spec units a (Z.to_nat (__len__ units - 0))
              0 (__len__ units))
    as [[Hthrow Hnone]|(r & x & Hr & Hrange & Hx & Hax & Hbefore)];
    [lia|lia|lia| |].
  - left. split; [|done]. apply count_zero, Forall_lookup.
    intros j x Hx. apply (Hnone (Z.of_nat j)).
    + apply lookup_lt_Some in Hx. unfold __len__. lia.
    + by rewrite Nat2Z.id.
  - right. split; [|by exists r, x].
    destruct (decide (count __eq units a = 0)) as [Hc|Hc].
    + apply count_zero in Hc.
      rewrite (proj1 (Forall_lookup _ _) Hc _ _ Hx) in Hax. done.
    + assert (0 ≤ count __eq units a); [|lia].
      unfold count. clear. induction units as [|y units IH]; simpl; [lia|].
      rewrite count_from_shift. destruct (__eq a y); lia.
Qed.

Lemma eq_units_Forall2 units b :
  eq_units __eq units b = true ↔ Forall2 (λ x y, __eq x y = true) units b.
Proof.
  revert b. induction units as [|x units IH]; intros [|y b]; simpl.
  - split; [constructor|done].
  - split; [done|inversion 1].
  - split; [done|inversion 1].
  - destruct (__eq x y) eqn:Hxy.
    + rewrite IH. split; [by constructor|]. by inversion 1.
    + split; [done|]. inversion 1; congruence.
Qed.

(** X14: [__eq__]: false for an object that is not a list of this type, and for a
    list true exactly when the lengths agree and the elements are equal
    position by position. *)
Theorem eq_pointwise units (p : pyobj T) :
  __eq__ __eq units p = true
  ↔ ∃ b, p = ListObj b
         ∧ length b = length units
         ∧ ∀ (i : nat) x y, units !! i = Some x → b !! i = Some y →
             __eq x y = true.
Proof.
  destruct p as [b|]; simpl.
  - destruct (Nat.eqb_spec (length b) (length units)) as [Hl|Hl]; simpl.
    + rewrite eq_units_Forall2, Forall2_lookup. split.
      * intros Hf. exists b. repeat split; [done|]. intros i x y Hx Hy.
        specialize (Hf i). rewrite Hx, Hy in Hf. by inversion Hf.
      * intros (b' & [= <-] & _ & Hf) i.
        destruct (units !! i) as [x|] eqn:Hx, (b !! i) as [y|] eqn:Hy.
        -- constructor. by apply (Hf i).
        -- apply lookup_lt_Some in Hx. apply lookup_ge_None in Hy. lia.
        -- apply lookup_lt_Some in Hy. apply lookup_ge_None in Hx. lia.
        -- constructor.
    + split; [done|]. by intros (b' & [= <-] & Hl' & _).
  - split; [done|]. by intros (b & ? & _).
Qed.

End Lookup.

Section Slices.
Context `{ss_int}.
Context {T : Type}.
Context (__eq : T → T → bool) (T0 : T).
Implicit Types (units b c : list T) (ps : list Z).

(** The body of the stride loops of [__slice__] over positions inside the
    buffer. *)
Lemma slice_run_over units ps c :
  (∀ p, p ∈ ps → 0 ≤ p < __len__ units) →
  ∃ picked,
    run_over (λ i c, e <~ vec_read units i ;; Return (c ++ [e]))%outcome ps c
    = Return (c ++ picked)
    ∧ length picked = length ps
    ∧ ∀ (k : nat) p, ps !! k = Some p → picked !! k = units !! Z.to_nat p.
Proof.
  revert c. induction ps as [|p ps IH]; intros c Hin.
  - exists []. simpl. by rewrite app_nil_r.
  - assert (0 ≤ p < __len__ units) as Hp by apply Hin, list_elem_of_here.
    destruct (lookup_lt_is_Some_2 units (Z.to_nat p)) as [e He];
      [unfold __len__ in Hp; lia|].
    destruct (IH (c ++ [e])) as (picked & Hrun & Hlen & Hpick).
    { intros p' Hp'. by apply Hin, list_elem_of_further. }
    exists (e :: picked). split; [|split].
    + cbn [run_over]. rewrite (vec_read_lookup units p e) by (done || lia).
      cbn [obind]. rewrite Hrun. by rewrite <- app_assoc.
    + simpl. by rewrite Hlen.
    + intros [|k] p' Hk; simpl in *; [by injection Hk as <-|by apply Hpick].
Qed.

Lemma slicenr_step (x l u s len : Z) lo hi st :
  slicenr x l u s len = Return (lo, hi, st) →
  (Z.testbit x 2 = true ∧ st = s ∧ s ≠ 0) ∨ (Z.testbit x 2 = false ∧ st = 1).
Proof.
  unfold slicenr. destruct (Z.testbit x 2); simpl.
  - destruct (Z.eqb_spec s 0); [done|]. intros [= _ _ <-]. by left.
  - intros [= _ _ <-]. by right.
Qed.

(** The stride loops of [__slice__] for a step that keeps the index inside
    [__ss_int]: a negative step down to the least value of the type, a
    positive one that added to the length does not pass the greatest. *)
Lemma slice_stride units (x l u s : Z) :
  Z.testbit x 2 = true → s ≠ 0 → s ≠ 1 →
  ss_min ≤ s → (0 < s → __len__ units + s ≤ ss_max) →
  ∃ lo hi c,
    slicenr x l u s (__len__ units) = Return (lo, hi, s)
    ∧ __slice__ units x l u s = Return c
    ∧ length c = length (stride_positions lo hi s)
    ∧ ∀ (k : nat) p,
        stride_positions lo hi s !! k = Some p →
        0 ≤ p < __len__ units ∧ c !! k = units !! Z.to_nat p.
Proof.
  intros Hx Hs0 Hs1 Hmin Hmax.
  destruct (PyListProps.slicenr_bounds x l u s (__len__ units))
    as (lo & hi & Hnr & Hb); [unfold __len__; lia|done|done|].
  assert (∀ p, p ∈ stride_positions lo hi s → 0 ≤ p < __len__ units) as Hin.
  { intros p. apply stride_positions_bounds; [done|]. destruct (0 <? s); lia. }
  assert (∀ p, p ∈ stride_positions lo hi s → ss_add p s = p + s) as Hfit.
  { intros p. apply (stride_no_wrap lo hi s (__len__ units)); [done..|].
    destruct (0 <? s); lia. }
  destruct (slice_run_over units (stride_positions lo hi s) [] Hin)
    as (picked & Hrun & Hlen & Hpick).
  exists lo, hi, picked. split; [done|]. split; [|split; [done|]].
  - unfold __slice__. rewrite Hnr. cbn [obind].
    destruct (Z.eqb_spec s 1); [done|].
    destruct (Z.ltb_spec 0 s) as [Hpos|Hneg].
    + by rewrite for_stride_ss_up.
    + by rewrite for_stride_ss_down by (done || lia).
  - intros k p Hk. split; [|by apply Hpick].
    apply Hin. by apply list_elem_of_lookup_2 with k.
Qed.

(** X15: A slice with a given step other than 0 and 1 that keeps the index
    inside [__ss_int] (a negative step of the type, or a positive one that
    added to the length does not pass the greatest value of the type)
    returns a new list with one element for every position of the stride
    walk, in the order of the walk; it reads no position outside the
    buffer, whatever the endpoints are. *)
Theorem slice_extended units (x l u s : Z) :
  Z.testbit x 2 = true → s ≠ 0 → s ≠ 1 →
  ss_min ≤ s → (0 < s → __len__ units + s ≤ ss_max) →
  ∃ lo hi c,
    slicenr x l u s (__len__ units) = Return (lo, hi, s)
    ∧ __slice__ units x l u s = Return c
    ∧ length c = length (stride_positions lo hi s)
    ∧ ∀ (k : nat) p,
        stride_positions lo hi s !! k = Some p →
        0 ≤ p < __len__ units ∧ c !! k = units !! Z.to_nat p.
Proof. apply slice_stride. Qed.

(** X16: Assigning to a slice what the same slice returns leaves the list as it
    is: with step 1, and with any other given step when the length and the
    step fit the integer types. *)
Theorem slice_then_setslice units (x l u s : Z) c :
  (Z.testbit x 2 = true → s ≠ 1 → stride_fits (__len__ units) s) →
  __slice__ units x l u s = Return c →
  __setslice__ x l u s (Other c) units = (Return tt, units).
Proof.
  intros Hfits Hslice.
  destruct (slicenr x l u s (__len__ units)) as [[[lo hi] st]| | |] eqn:Hnr;
    try (unfold __slice__ in Hslice; rewrite Hnr in Hslice; done).
  destruct (Z.eq_dec st 1) as [->|Hst].
  - unfold __slice__ in Hslice. rewrite Hnr in Hslice. simpl in Hslice.
    destruct ((0 <=? lo) && (lo <=? hi) && (hi <=? __len__ units)) eqn:Hb;
      [|done].
    apply andb_prop in Hb as [[Hlo Hlh]%andb_prop Hhi].
    pose proof Hlo as Hlo'. pose proof Hlh as Hlh'. pose proof Hhi as Hhi'.
    apply Z.leb_le in Hlo', Hlh', Hhi'. injection Hslice as <-.
    unfold __setslice__, bind, get, lift, put, ret. rewrite Hnr. simpl.
    rewrite andb_false_r. simpl.
    unfold vec_erase. rewrite Hlo, Hlh, Hhi. simpl.
    assert (length (take (Z.to_nat lo) units) = Z.to_nat lo) as Htl
      by (rewrite length_take; unfold __len__ in *; lia).
    unfold vec_insert, __len__. rewrite length_app, Htl, Hlo.
    destruct (Z.leb_spec lo
                (Z.of_nat (Z.to_nat lo + length (drop (Z.to_nat hi) units))));
      [|lia].
    simpl. rewrite take_app_length', drop_app_length' by done.
    rewrite app_assoc, take_take_drop.
    replace (Z.to_nat lo + Z.to_nat (hi - lo))%nat with (Z.to_nat hi) by lia.
    by rewrite take_drop.
  - destruct (slicenr_step _ _ _ _ _ _ _ _ Hnr) as [(Hx & -> & Hs0)|[_ ->]];
      [|done].
    specialize (Hfits Hx Hst).
    pose proof int_max_ss_max as Hint. pose proof ss_min_max as Hmin.
    destruct (slice_stride units x l u s Hx Hs0 Hst)
      as (lo' & hi' & c' & Hnr' & Hslice' & Hlen & Hpick).
    { destruct Hfits as (_ & ? & _). lia. }
    { intros _. by destruct Hfits as (_ & _ & ?). }
    rewrite Hnr in Hnr'. injection Hnr' as <- <-.
    rewrite Hslice in Hslice'. injection Hslice' as <-.
    destruct (PyListProps.slicenr_bounds x l u s (__len__ units))
      as (lo' & hi' & Hnr' & Hb); [unfold __len__; lia|done|done|].
    rewrite Hnr in Hnr'. injection Hnr' as <- <-.
    destruct (PyListProps.setslice_run_over (Other c)
                (stride_positions lo hi s) 0 units)
      as (units' & Hrun & Hlen' & Hout & Hval).
    { by apply stride_positions_NoDup. }
    { intros p Hp. apply (stride_positions_bounds lo hi s); [done| |done].
      destruct (0 <? s); lia. }
    { done. }
    { simpl. unfold __len__. lia. }
    assert (units' = units) as ->.
    { apply list_eq. intros q.
      destruct (decide (Z.of_nat q ∈ stride_positions lo hi s)) as [Hq|Hq].
      - apply list_elem_of_lookup_1 in Hq as [k Hk].
        pose proof (Hval c eq_refl k _ Hk) as Hv.
        rewrite Nat2Z.id, Z.add_0_l, Nat2Z.id in Hv. rewrite Hv.
        destruct (Hpick k _ Hk) as [_ ->]. by rewrite Nat2Z.id.
      - by apply Hout. }
    destruct (PyListProps.stride_fits_walk lo hi s units Hs0 Hfits Hb)
      as [Hsmin Hwalk].
    pose proof (PyListProps.setslice_size lo hi s units Hs0
                  (proj1 Hfits) (proj1 (proj2 Hfits)) Hb) as Hsize.
    pose proof (PyListProps.setslice_loops lo hi s (Other c) units
                  Hs0 Hsmin Hb Hwalk) as Hloops.
    unfold __setslice__, bind, get, lift, put, ret, throw. rewrite Hnr, Hx.
    destruct (Z.eqb_spec s 1); [done|]. cbn [andb negb fst snd].
    rewrite Hsize. cbn [operand_units]. unfold __len__. rewrite Hlen.
    rewrite Z.eqb_refl. cbn [negb fst snd].
    destruct (Z.ltb_spec 0 s) as [Hpos|Hneg].
    + destruct (Z.ltb_spec 0 s); [|lia]. by rewrite Hloops, Hrun.
    + destruct (Z.ltb_spec 0 s); [lia|]. by rewrite Hloops, Hrun.
Qed.

Lemma rev_lookup_lt units (i : nat) :
  (i < length units)%nat → rev units !! i = units !! (length units - S i)%nat.
Proof. intros Hi. rewrite rev_alt. by apply (reverse_lookup units i). Qed.

(** X17: The slice with step -1 and no endpoints returns a new list holding what
    [reverse()] leaves in the receiver. *)
Theorem slice_reversed_is_reverse units (l u : Z) :
  __slice__ units 4 l u (-1) = Return (rev units)
  ∧ reverse units = (Return tt, rev units).
Proof.
  split; [|done].
  pose proof ss_min_max as Hmin. pose proof ss_max_nonneg as Hmax.
  destruct (slice_stride units 4 l u (-1))
    as (lo & hi & c & Hnr & -> & Hlen & Hpick); [done|done|done|lia|lia|].
  assert (lo = __len__ units - 1 ∧ hi = -1) as [-> ->].
  { unfold slicenr in Hnr. simpl in Hnr. by injection Hnr as <- <-. }
  f_equal. apply list_eq. intros i.
  destruct (decide (i < length units)%nat) as [Hi|Hi].
  - rewrite rev_lookup_lt by done.
    assert (stride_positions (__len__ units - 1) (-1) (-1) !! i
            = Some (__len__ units - 1 + Z.of_nat i * -1)) as Hp.
    { apply stride_positions_lookup; [done|]. split; [done|].
      simpl. unfold __len__. lia. }
    destruct (Hpick i _ Hp) as [_ ->]. f_equal. unfold __len__. lia.
  - rewrite (lookup_ge_None_2 (rev units)) by (rewrite length_rev; lia).
    apply lookup_ge_None_2. rewrite Hlen.
    destruct (decide (length (stride_positions (__len__ units - 1) (-1) (-1))
                      ≤ i)%nat) as [|Hgt]; [done|].
    destruct (lookup_lt_is_Some_2
                (stride_positions (__len__ units - 1) (-1) (-1)) i)
      as [p Hp]; [lia|].
    apply stride_positions_lookup in Hp as [-> Hp]; [|done].
    simpl in Hp. unfold __len__ in Hp. lia.
Qed.

(** X18: For every [k], in range or not, the slices [a[:k]] and [a[k:]] are the
    two parts of [a]: concatenated they give the elements of [a] back. *)
Theorem slice_split_concat units (k l u s : Z) :
  ∃ front back,
    __slice__ units 2 l k s = Return front
    ∧ __slice__ units 1 k u s = Return back
    ∧ __add__ T0 front back = Return units.
Proof.
  set (k' := clamp_endpoint k 1 (__len__ units)).
  assert (0 ≤ k' ≤ __len__ units) as Hk.
  { unfold k', clamp_endpoint, __len__. simpl. repeat case_match; lia. }
  exists (take (Z.to_nat k') units), (drop (Z.to_nat k') units).
  split; [|split].
  - unfold __slice__, slicenr. simpl. fold k'.
    destruct (Z.leb_spec 0 k'); [|lia].
    destruct (Z.leb_spec k' (__len__ units)); [|lia]. simpl.
    by rewrite Z.sub_0_r, drop_0.
  - unfold __slice__, slicenr. simpl. fold k'.
    destruct (Z.leb_spec 0 k'); [|lia].
    destruct (Z.leb_spec k' (__len__ units)); [|lia].
    rewrite Z.leb_refl. simpl. f_equal. apply take_ge.
    rewrite length_drop. unfold __len__. lia.
  - rewrite add_concat. by rewrite take_drop.
Qed.

End Slices.

Section Removal.
Context `{ss_int}.
Context {T : Type}.
Context (__eq : T → T → bool) (T0 : T).
Implicit Types (units b c rest : list T) (a e : T).

(** X19: [del a[i]] and [pop(i)] remove the same element: [__delitem__]
    succeeds and leaves a list exactly when [pop(i)] succeeds, for some
    returned element, and leaves that list. *)
Theorem delitem_is_pop units (i : Z) rest :
  __delitem__ i units = (Return tt, rest)
  ↔ ∃ e, pop_at i units = (Return e, rest).
Proof.
  unfold __delitem__, pop_at, __wrap, bind, get, lift, put, ret, throw.
  cbn [fst snd].
  destruct (Z.eqb_spec (__len__ units) 0) as [Hz | Hz].
  - rewrite Hz. destruct (Z.ltb_spec i 0).
    + destruct (Z.ltb_spec (i + 0) 0); [|lia]. cbn [orb].
      split; [discriminate | by intros [? ?]].
    + destruct (Z.leb_spec 0 i); [|lia]. rewrite orb_true_r.
      split; [discriminate | by intros [? ?]].
  - replace (if i <? 0 then i + __len__ units else i)
      with (if i <? 0 then __len__ units + i else i)
      by (destruct (i <? 0); lia).
    set (j := if i <? 0 then __len__ units + i else i).
    destruct ((j <? 0) || (__len__ units <=? j)) eqn:Hout.
    + split; [discriminate | by intros [? ?]].
    + apply orb_false_elim in Hout as [Hlo Hhi].
      apply Z.ltb_ge in Hlo. apply Z.leb_gt in Hhi.
      unfold vec_read, vec_erase, __len__ in *.
      destruct (Z.ltb_spec j 0); [lia|].
      destruct (lookup_lt_is_Some_2 units (Z.to_nat j)) as [x Hx]; [lia|].
      rewrite Hx.
      destruct (Z.leb_spec 0 j); [|lia].
      destruct (Z.leb_spec j (j + 1)); [|lia].
      destruct (Z.leb_spec (j + 1) (Z.of_nat (length units))); [|lia].
      cbn. split.
      * intros [= <-]. by exists x.
      * by intros [e [= _ <-]].
Qed.

Lemma slicenr_start_stop (len a' b' : Z) :
  0 ≤ len → 0 ≤ a' → 0 ≤ b' →
  slicenr 3 a' b' 1 len = Return (Z.min a' len, Z.min b' len, 1).
Proof.
  intros Hlen Ha Hb. unfold slicenr, clamp_endpoint.
  change (Z.testbit 3 2) with false. change (Z.testbit 3 0) with true.
  change (Z.testbit 3 1) with true. cbn [andb]. change (0 <? 1) with true.
  cbv iota.
  rewrite (proj2 (Z.ltb_ge a' 0)), (proj2 (Z.ltb_ge b' 0)) by lia.
  rewrite (proj2 (Z.ltb_ge a' 0)), (proj2 (Z.ltb_ge b' 0)) by lia.
  destruct (Z.ltb_spec len a'); destruct (Z.ltb_spec len b');
    do 3 f_equal; lia.
Qed.

(** X20: [__delslice__(a, b)] removes what the slice [a:b] returns, for
    [0 <= a <= b] (an end beyond the length counts as the length): the
    list is what is left with the slice put back at position [a]. *)
Theorem delslice_removes_slice units (a' b' : Z) :
  0 ≤ a' ≤ b' →
  ∃ c rest,
    __slice__ units 3 a' b' 1 = Return c
    ∧ __delslice__ a' b' units = (Return tt, rest)
    ∧ units = take (Z.to_nat a') rest ++ c ++ drop (Z.to_nat a') rest
    ∧ __len__ rest = __len__ units - __len__ c.
Proof.
  intros Hab.
  unfold __slice__. rewrite slicenr_start_stop by (unfold __len__; lia).
  cbn [obind]. change (1 =? 1) with true. cbv iota.
  unfold __delslice__, bind, get, lift, put, ret, vec_erase, __len__.
  cbn [fst snd].
  set (len := Z.of_nat (length units)).
  assert (0 ≤ len) by lia.
  destruct (Z.leb_spec 0 (Z.min a' len)); [|lia].
  destruct (Z.leb_spec (Z.min a' len) (Z.min b' len)); [|lia].
  destruct (Z.leb_spec (Z.min b' len) len); [|lia]. cbn [andb].
  destruct (Z.ltb_spec len a') as [Hla | Hla].
  - eexists _, units. split; [done|]. split; [done|].
    rewrite !Z.min_r by lia. rewrite Z.sub_diag.
    change (Z.to_nat 0) with 0%nat. rewrite take_0. cbn [app length].
    split; [by rewrite take_drop | lia].
  - rewrite (Z.min_l a' len) by lia.
    replace (if len <? b' then len else b') with (Z.min b' len)
      by (destruct (Z.ltb_spec len b'); lia).
    set (hi := Z.min b' len).
    assert (a' ≤ hi ≤ len) by lia.
    destruct (Z.leb_spec 0 a'); [|lia].
    destruct (Z.leb_spec a' hi); [|lia].
    destruct (Z.leb_spec hi len); [|lia]. cbn [andb obind].
    eexists _, _. split; [done|]. split; [done|].
    rewrite take_app_le by (rewrite length_take; lia).
    rewrite take_take, Nat.min_id.
    rewrite drop_app_ge by (rewrite length_take; lia).
    rewrite length_take, Nat.min_l by lia.
    rewrite Nat.sub_diag, drop_0.
    split.
    + rewrite <- (take_drop (Z.to_nat a') units) at 1. f_equal.
      rewrite <- (take_drop (Z.to_nat (hi - a')) (drop (Z.to_nat a') units)) at 1.
      f_equal. rewrite drop_drop. f_equal. lia.
    + rewrite length_app, !length_take, !length_drop. lia.
Qed.

End Removal.

(** *** The properties above at concrete lists *)


Lemma pop_at_behaviour_witness :
  - __len__ [10; 20; 30] ≤ -1 < __len__ [10; 20; 30]
  ∧ ∃ e, [10; 20; 30]
           !! Z.to_nat (if -1 <? 0 then __len__ [10; 20; 30] + -1 else -1)
         = Some e
         ∧ pop_at (-1) [10; 20; 30]
           = (Return e,
              delete
                (Z.to_nat (if -1 <? 0 then __len__ [10; 20; 30] + -1 else -1))
                [10; 20; 30]).
Proof.
  assert (- __len__ [10; 20; 30] ≤ -1 < __len__ [10; 20; 30]) as H
    by (vm_compute; split; [discriminate | reflexivity]).
  split; [exact H|].
  exact (proj1 (proj2 (pop_at_behaviour [10; 20; 30] (-1))) H).
Defined.

Lemma pop_then_insert_witness :
  0 ≤ 1
  ∧ pop_at 1 [10; 20; 30] = (Return 20, [10; 30])
  ∧ insert 1 20 [10; 30] = (Return tt, [10; 20; 30]).
Proof.
  assert (0 ≤ 1) as H1 by lia.
  assert (pop_at 1 [10; 20; 30] = (Return 20, [10; 30])) as H2
    by (vm_compute; reflexivity).
  exact (conj H1 (conj H2 (pop_then_insert [10; 20; 30] 1 20 [10; 30] H1 H2))).
Defined.

Lemma remove_first_equal_witness :
  __contains__ Z.eqb [1; 2; 3; 2] 2 = true
  ∧ ∃ before x after,
      [1; 2; 3; 2] = before ++ x :: after
      ∧ (x =? 2) = true
      ∧ Forall (λ y, (y =? 2) = false) before
      ∧ remove Z.eqb 2 [1; 2; 3; 2] = (Return tt, before ++ after).
Proof.
  assert (__contains__ Z.eqb [1; 2; 3; 2] 2 = true) as H
    by (vm_compute; reflexivity).
  split; [exact H|].
  exact (proj2 (remove_first_equal Z.eqb [1; 2; 3; 2] 2) H).
Defined.

Lemma slice_extended_witness :
  Z.testbit 7 2 = true ∧ 2 ≠ 0 ∧ 2 ≠ 1
  ∧ ss_min ≤ 2 ∧ (0 < 2 → __len__ [10; 20; 30; 40; 50] + 2 ≤ ss_max)
  ∧ ∃ lo hi c,
      slicenr 7 0 5 2 (__len__ [10; 20; 30; 40; 50]) = Return (lo, hi, 2)
      ∧ __slice__ [10; 20; 30; 40; 50] 7 0 5 2 = Return c
      ∧ length c = length (stride_positions lo hi 2)
      ∧ ∀ (k : nat) p,
          stride_positions lo hi 2 !! k = Some p →
          0 ≤ p < __len__ [10; 20; 30; 40; 50]
          ∧ c !! k = [10; 20; 30; 40; 50] !! Z.to_nat p.
Proof.
  assert (ss_min ≤ 2) as Hmin by (vm_compute; discriminate).
  assert (0 < 2 → __len__ [10; 20; 30; 40; 50] + 2 ≤ ss_max) as Hmax
    by (intros _; vm_compute; discriminate).
  split; [reflexivity|]. split; [discriminate|]. split; [discriminate|].
  split; [exact Hmin|]. split; [exact Hmax|].
  apply (slice_extended [10; 20; 30; 40; 50] 7 0 5 2);
    [reflexivity | discriminate | discriminate | exact Hmin | exact Hmax].
Defined.

Lemma slice_then_setslice_witness :
  (Z.testbit 7 2 = true → -2 ≠ 1 →
   stride_fits (__len__ [10; 20; 30; 40; 50]) (-2))
  ∧ __slice__ [10; 20; 30; 40; 50] 7 4 0 (-2) = Return [50; 30]
  ∧ __setslice__ 7 4 0 (-2) (Other [50; 30]) [10; 20; 30; 40; 50]
    = (Return tt, [10; 20; 30; 40; 50]).
Proof.
  assert (Z.testbit 7 2 = true → -2 ≠ 1 →
          stride_fits (__len__ [10; 20; 30; 40; 50]) (-2)) as Hfits
    by (intros _ _; repeat split; vm_compute; discriminate).
  assert (__slice__ [10; 20; 30; 40; 50] 7 4 0 (-2) = Return [50; 30]) as H
    by (vm_compute; reflexivity).
  exact (conj Hfits (conj H
           (slice_then_setslice [10; 20; 30; 40; 50] 7 4 0 (-2) [50; 30]
              Hfits H))).
Defined.

Lemma delslice_removes_slice_witness :
  0 ≤ 1 ≤ 7
  ∧ ∃ c rest,
      __slice__ [10; 20; 30; 40; 50] 3 1 7 1 = Return c
      ∧ __delslice__ 1 7 [10; 20; 30; 40; 50] = (Return tt, rest)
      ∧ [10; 20; 30; 40; 50]
        = take (Z.to_nat 1) rest ++ c ++ drop (Z.to_nat 1) rest
      ∧ __len__ rest = __len__ [10; 20; 30; 40; 50] - __len__ c.
Proof.
  assert (0 ≤ 1 ≤ 7) as H by lia.
  exact (conj H (delslice_removes_slice [10; 20; 30; 40; 50] 1 7 H)).
Defined.

(** A step that takes the index past the greatest [__ss_int], here of 32
    bits: after position 1 the index wraps and the next read is outside the
    buffer. *)
Example slice_step_overflow :
  __slice__ [1; 2; 3] 7 1 3 2147483647 = Undefined
  ∧ __slice__ [1; 2; 3] 7 0 3 2147483647 = Return [1].
Proof. split; vm_compute; reflexivity. Qed.

End PyListOpsProps.

(** ** bytes: the remaining methods *)

Module PyBytesOpsProps.
Import Byte PyBytes PyBytesOps.

Section Literal.
Implicit Types (this b q : bytes) (content body rest : list byte) (c quote : byte).

(** The stream [__repr__] builds, before it becomes a [str]. *)
Lemma repr_stream this :
  __repr__ this
  = string_of_list_byte
      ([x62; spec_quote (unit this)]
       ++ flat_map (spec_escape (spec_quote (unit this))) (unit this)
       ++ [spec_quote (unit this)]).
Proof.
  unfold __repr__.
  rewrite !PyBytesProps.find_absent, !negb_involutive.
  pose proof (PyBytesProps.spec_stream_no_nul (unit this)) as Hnul.
  unfold spec_quote in *.
  destruct (bool_decide (x27 ∈ unit this)) eqn:Hq;
    destruct (bool_decide (x22 ∈ unit this)) eqn:Hd; cbn [andb negb] in *.
  - rewrite (PyBytesProps.flat_map_ext_in _ (spec_escape x27))
      by (intros; apply PyBytesProps.repr_byte_both).
    by rewrite PyBytesProps.c_str_no_nul.
  - apply bool_decide_eq_false in Hd.
    rewrite (PyBytesProps.flat_map_ext_in _ (spec_escape x22)).
    + by rewrite PyBytesProps.c_str_no_nul.
    + intros c Hc. apply PyBytesProps.repr_byte_double_quote. by intros ->.
  - apply bool_decide_eq_false in Hq.
    rewrite (PyBytesProps.flat_map_ext_in _ (spec_escape x27)).
    + by rewrite PyBytesProps.c_str_no_nul.
    + intros c Hc. apply PyBytesProps.repr_byte_single_quote. by intros ->.
  - apply bool_decide_eq_false in Hq.
    rewrite (PyBytesProps.flat_map_ext_in _ (spec_escape x27)).
    + by rewrite PyBytesProps.c_str_no_nul.
    + intros c Hc. apply PyBytesProps.repr_byte_single_quote. by intros ->.
Qed.

Lemma unescape_one_escape quote c rest :
  quote = x27 ∨ quote = x22 →
  unescape_one (spec_escape quote c ++ rest) = Some (c, rest).
Proof. intros [-> | ->]; destruct c; reflexivity. Qed.

Lemma spec_escape_length quote c :
  (1 ≤ length (spec_escape quote c))%nat.
Proof.
  unfold spec_escape. repeat case_match; simpl; lia.
Qed.

Lemma unescape_body quote content (fuel : nat) :
  quote = x27 ∨ quote = x22 →
  (length (flat_map (spec_escape quote) content) ≤ fuel)%nat →
  unescape fuel (flat_map (spec_escape quote) content) = Some content.
Proof.
  intros Hq. revert fuel.
  induction content as [|c content IH]; intros fuel Hfuel.
  - by destruct fuel.
  - cbn [flat_map] in *. rewrite length_app in Hfuel.
    pose proof (spec_escape_length quote c) as Hlen.
    destruct (spec_escape quote c ++ flat_map (spec_escape quote) content)
      as [|x xs] eqn:Hs.
    { apply (f_equal length) in Hs. rewrite length_app in Hs. simpl in Hs. lia. }
    destruct fuel as [|fuel]; [lia|]. cbn [unescape]. rewrite <- Hs.
    rewrite unescape_one_escape by done. rewrite IH by lia. done.
Qed.

Lemma repr_body this :
  ∃ quote body,
    (quote = x27 ∨ quote = x22)
    ∧ __repr__ this = string_of_list_byte (x62 :: quote :: body ++ [quote])
    ∧ unescape (length body) body = Some (unit this)
    ∧ body = flat_map (spec_escape quote) (unit this).
Proof.
  exists (spec_quote (unit this)),
    (flat_map (spec_escape (spec_quote (unit this))) (unit this)).
  assert (spec_quote (unit this) = x27 ∨ spec_quote (unit this) = x22) as Hq.
  { unfold spec_quote. case_match; auto. }
  split; [done|]. split; [apply repr_stream|]. split; [|done].
  by apply unescape_body.
Qed.

Lemma string_of_list_byte_inj (a b' : list byte) :
  string_of_list_byte a = string_of_list_byte b' → a = b'.
Proof.
  intros H. apply (f_equal list_byte_of_string) in H.
  by rewrite !list_byte_of_string_of_list_byte in H.
Qed.

(** X21: What [__repr__] returns can be read back. The result is [b], a
    quote, a body and the same quote, and reading the body's escapes back
    gives the contents, byte for byte. *)
Theorem repr_reads_back this :
  ∃ quote body,
    (quote = x27 ∨ quote = x22)
    ∧ __repr__ this = string_of_list_byte (x62 :: quote :: body ++ [quote])
    ∧ unescape (length body) body = Some (unit this).
Proof.
  destruct (repr_body this) as (quote & body & Hq & Hr & Hu & _).
  by exists quote, body.
Qed.

(** X22: [__repr__] tells contents apart: two values with the same literal
    form hold the same bytes. *)
Theorem repr_injective b q :
  __repr__ b = __repr__ q → unit b = unit q.
Proof.
  intros Heq.
  destruct (repr_body b) as (q1 & body1 & _ & Hr1 & Hu1 & _).
  destruct (repr_body q) as (q2 & body2 & _ & Hr2 & Hu2 & _).
  rewrite Hr1, Hr2 in Heq. apply string_of_list_byte_inj in Heq.
  injection Heq as Hquote Hbody. subst q2.
  apply app_inv_tail in Hbody. subst body2.
  rewrite Hu1 in Hu2. by injection Hu2.
Qed.

Lemma spec_escape_printable quote c :
  quote = x27 ∨ quote = x22 →
  forallb printable (spec_escape quote c) = true.
Proof. intros [-> | ->]; destruct c; vm_compute; reflexivity. Qed.

(** X23: The literal form is printable ASCII: every character of what
    [__repr__] returns lies between the space and the tilde, whatever the
    bytes of the value. *)
Theorem repr_printable this :
  Forall (λ c, printable c = true) (list_byte_of_string (__repr__ this)).
Proof.
  destruct (repr_body this) as (quote & body & Hq & Hr & _ & Hb).
  rewrite Hr, list_byte_of_string_of_list_byte.
  assert (printable quote = true) as Hpq by (by destruct Hq as [-> | ->]).
  constructor; [done|]. constructor; [done|].
  apply Forall_app. split; [|by constructor].
  subst body. clear Hr.
  induction (unit this) as [|c content IH]; [constructor|].
  cbn [flat_map]. apply Forall_app. split; [|exact IH].
  apply Forall_forall. intros x Hx.
  pose proof (spec_escape_printable quote c Hq) as Hall.
  rewrite forallb_forall in Hall. apply Hall. by apply list_elem_of_In.
Qed.

Lemma string_of_list_byte_app (a b' : list byte) :
  string_of_list_byte (a ++ b')
  = string_of_list_byte a +:+ string_of_list_byte b'.
Proof.
  induction a as [|x a IH]; [done|].
  change (string_of_list_byte ((x :: a) ++ b'))
    with (String (ascii_of_byte x) (string_of_list_byte (a ++ b'))).
  by rewrite IH.
Qed.

Lemma string_append_assoc (s1 s2 s3 : string) :
  (s1 +:+ s2) +:+ s3 = s1 +:+ (s2 +:+ s3).
Proof.
  induction s1 as [|x s1 IH]; [done|].
  change (String x ((s1 +:+ s2) +:+ s3) = String x (s1 +:+ (s2 +:+ s3))).
  by rewrite IH.
Qed.

Lemma plain_escape quote c :
  quote = x27 ∨ quote = x22 → plain c = true → spec_escape quote c = [c].
Proof. intros [-> | ->]; destruct c; vm_compute; (reflexivity || discriminate). Qed.

Lemma plain_not_quote content :
  Forall (λ c, plain c = true) content → x27 ∉ content.
Proof.
  intros Hall Hin. rewrite Forall_forall in Hall.
  by specialize (Hall _ Hin).
Qed.

(** X24: [__str__] against [__repr__]. [__str__] copies the bytes between
    single quotes without escaping any; on contents of printable bytes
    other than the backslash and the quotes it is the literal form of
    [__repr__], wrapped in [bytearray(...)] when the [frozen] field is
    not 0. *)
Theorem str_plain_is_repr this :
  Forall (λ c, plain c = true) (unit this) →
  __str__ this
  = if frozen this =? 0 then __repr__ this
    else "bytearray(" +:+ __repr__ this +:+ ")".
Proof.
  intros Hplain.
  assert (spec_quote (unit this) = x27) as Hquote.
  { unfold spec_quote. rewrite (bool_decide_eq_false_2 (x27 ∈ unit this)); [done|].
    by apply plain_not_quote. }
  assert (flat_map (spec_escape x27) (unit this) = unit this) as Hbody.
  { clear Hquote. induction Hplain as [|c content Hc _ IH]; [done|].
    cbn [flat_map]. rewrite IH.
    rewrite (plain_escape x27 c); [done | by left | exact Hc]. }
  rewrite repr_stream, Hquote, Hbody. unfold __str__.
  change ([x62; x27] ++ unit this ++ [x27]) with (x62 :: x27 :: unit this ++ [x27]).
  cbn [string_of_list_byte map string_of_list_ascii].
  fold (string_of_list_byte (unit this ++ [x27])).
  rewrite string_of_list_byte_app.
  destruct (frozen this =? 0); cbn [negb].
  - reflexivity.
  - change (string_of_list_byte [x27]) with "'".
    change ("bytearray(b'" +:+ string_of_list_byte (unit this) +:+ "')")
      with ("bytearray(" +:+ "b'" +:+ string_of_list_byte (unit this) +:+ "'" +:+ ")").
    change (String (ascii_of_byte x62) (String (ascii_of_byte x27)
              (string_of_list_byte (unit this) +:+ "'")))
      with ("b'" +:+ string_of_list_byte (unit this) +:+ "'").
    f_equal. by rewrite !string_append_assoc.
Qed.

End Literal.

Section Equality.
Implicit Types (this q : bytes).

Lemma memcmp_eq_whole (a b' : list byte) :
  length a = length b' →
  memcmp_eq a b' (length a) = bool_decide (a = b').
Proof.
  intros Hlen. unfold memcmp_eq.
  rewrite firstn_all. rewrite Hlen, firstn_all. done.
Qed.

(** X25: What [__eq__] decides. Two values are equal exactly when they hold
    the same bytes and their memoized hashes do not contradict each other
    (one of them is the sentinel -1, or they agree); the answer does not
    depend on which of the two is the receiver. *)
Theorem eq_contents_and_hashes this q :
  (__eq__ this q = true
   ↔ unit this = unit q
     ∧ (hash this = -1 ∨ hash q = -1 ∨ hash this = hash q))
  ∧ __eq__ this q = __eq__ q this.
Proof.
  assert (∀ a b', __eq__ a b' = true
     ↔ unit a = unit b'
       ∧ (hash a = -1 ∨ hash b' = -1 ∨ hash a = hash b')) as Hchar.
  { intros a b'. unfold __eq__, size.
    destruct (Z.eqb_spec (Z.of_nat (length (unit a))) (Z.of_nat (length (unit b'))))
      as [Hlen | Hlen]; cbn [negb orb].
    - apply Nat2Z.inj in Hlen.
      destruct (Z.eqb_spec (hash a) (-1)) as [Ha | Ha];
        destruct (Z.eqb_spec (hash b') (-1)) as [Hb | Hb];
        destruct (Z.eqb_spec (hash a) (hash b')) as [Hab | Hab];
        cbn [negb andb];
        rewrite ?Nat2Z.id, ?memcmp_eq_whole by done;
        rewrite ?bool_decide_eq_true; intuition (try discriminate; try lia).
    - split; [discriminate|]. intros [Hu _]. by rewrite Hu in Hlen. }
  split; [apply Hchar|].
  destruct (__eq__ this q) eqn:H1; destruct (__eq__ q this) eqn:H2; try done.
  - apply Hchar in H1. rewrite <- H2. symmetry. apply Hchar.
    destruct H1 as [-> H1]. split; [done|]. intuition.
  - apply Hchar in H2. rewrite <- H1. apply Hchar.
    destruct H2 as [-> H2]. split; [done|]. intuition.
Qed.

End Equality.
Section Find.

(** X26: [find(c, a)] from a position [a >= 0] returns the position of the
    first [c] at or after [a], or -1 when there is none. *)
Theorem find_first_occurrence (this : bytes) (c : byte) (a : Z) :
  0 ≤ a →
  (find this c a = -1
   ∧ ∀ j : Z, a ≤ j → unit this !! Z.to_nat j ≠ Some c)
  ∨ (a ≤ find this c a < size this
     ∧ unit this !! Z.to_nat (find this c a) = Some c
     ∧ ∀ j : Z, a ≤ j < find this c a → unit this !! Z.to_nat j ≠ Some c).
Proof.
  intros Ha. unfold find, size.
  destruct (Z.ltb_spec a 0); [lia|]. cbn [orb].
  destruct (Z.ltb_spec (Z.of_nat (length (unit this))) a) as [Hlen | Hlen].
  - left. split; [done|]. intros j Hj Hlook.
    apply lookup_lt_Some in Hlook. lia.
  - assert (∀ (s : list byte) (i : Z),
      0 ≤ i →
      (find_from s c i = -1 ∧ c ∉ s)
      ∨ (∃ k : nat, find_from s c i = i + Z.of_nat k
           ∧ s !! k = Some c ∧ ∀ m : nat, (m < k)%nat → s !! m ≠ Some c)) as Hspec.
    { induction s as [|x s IH]; intros i Hi.
      - left. split; [done|]. apply not_elem_of_nil.
      - cbn [find_from].
        destruct (Byte.eqb x c) eqn:Hx.
        + apply PyBytesProps.byte_eqb_eq in Hx. subst x. right.
          exists 0%nat. split; [lia|]. split; [done|]. lia.
        + assert (x ≠ c) as Hne.
          { intros ->. rewrite (proj2 (PyBytesProps.byte_eqb_eq c c) eq_refl) in Hx.
            discriminate. }
          destruct (IH (i + 1)) as [[Hn Hnot] | (k & Hk & Hlook & Hmin)]; [lia| |].
          * left. split; [done|]. apply not_elem_of_cons. split; [congruence|done].
          * right. exists (Datatypes.S k). split; [lia|]. split; [done|].
            intros [|m] Hm; cbn; [congruence|]. apply Hmin. lia. }
    destruct (Hspec (drop (Z.to_nat a) (unit this)) a Ha)
      as [[Hn Hnot] | (k & Hk & Hlook & Hmin)].
    + left. split; [done|]. intros j Hj Hlook. apply Hnot.
      apply list_elem_of_lookup_2 with (Z.to_nat j - Z.to_nat a)%nat.
      rewrite lookup_drop. rewrite <- Hlook. f_equal. lia.
    + { right. rewrite Hk. rewrite lookup_drop in Hlook.
        pose proof (lookup_lt_Some _ _ _ Hlook) as Hlt.
        split; [lia|]. split.
        -- rewrite <- Hlook. f_equal. lia.
        -- intros j Hj Hj'. apply (Hmin (Z.to_nat j - Z.to_nat a)%nat); [lia|].
           rewrite lookup_drop. rewrite <- Hj'. f_equal. lia. }
Qed.

End Find.

(** *** The properties above at concrete values *)

Lemma repr_injective_witness :
  __repr__ (mk_bytes [x61; x27; x00] (-1) 1) = __repr__ (mk_bytes [x61; x27; x00] 5 0)
  ∧ unit (mk_bytes [x61; x27; x00] (-1) 1) = unit (mk_bytes [x61; x27; x00] 5 0).
Proof.
  assert (__repr__ (mk_bytes [x61; x27; x00] (-1) 1)
          = __repr__ (mk_bytes [x61; x27; x00] 5 0)) as H
    by (vm_compute; reflexivity).
  exact (conj H (repr_injective _ _ H)).
Defined.

Lemma str_plain_is_repr_witness :
  Forall (λ c, plain c = true) (unit (mk_bytes [x61; x62; x20] (-1) 0))
  ∧ __str__ (mk_bytes [x61; x62; x20] (-1) 0)
    = if frozen (mk_bytes [x61; x62; x20] (-1) 0) =? 0
      then __repr__ (mk_bytes [x61; x62; x20] (-1) 0)
      else "bytearray(" +:+ __repr__ (mk_bytes [x61; x62; x20] (-1) 0) +:+ ")".
Proof.
  assert (Forall (λ c, plain c = true) (unit (mk_bytes [x61; x62; x20] (-1) 0)))
    as H by (repeat constructor).
  exact (conj H (str_plain_is_repr _ H)).
Defined.

Lemma find_first_occurrence_witness :
  0 ≤ 1
  ∧ ((find (mk_bytes [x61; x62; x61; x62] (-1) 0) x61 1 = -1
      ∧ ∀ j : Z, 1 ≤ j →
          unit (mk_bytes [x61; x62; x61; x62] (-1) 0) !! Z.to_nat j ≠ Some x61)
     ∨ (1 ≤ find (mk_bytes [x61; x62; x61; x62] (-1) 0) x61 1
          < size (mk_bytes [x61; x62; x61; x62] (-1) 0)
        ∧ unit (mk_bytes [x61; x62; x61; x62] (-1) 0)
            !! Z.to_nat (find (mk_bytes [x61; x62; x61; x62] (-1) 0) x61 1)
          = Some x61
        ∧ ∀ j : Z,
            1 ≤ j < find (mk_bytes [x61; x62; x61; x62] (-1) 0) x61 1 →
            unit (mk_bytes [x61; x62; x61; x62] (-1) 0) !! Z.to_nat j
            ≠ Some x61)).
Proof.
  assert (0 ≤ 1) as H by lia.
  exact (conj H (find_first_occurrence _ x61 1 H)).
Defined.

(** A negative start is a start beyond the buffer. *)
Example find_negative_start :
  find (mk_bytes [x61; x62; x61; x62] (-1) 0) x62 (-1) = -1
  ∧ find (mk_bytes [x61; x62; x61; x62] (-1) 0) x62 0 = 1.
Proof. split; vm_compute; reflexivity. Qed.

End PyBytesOpsProps.
